(** * The host-side bridge of crosslocale: the N-API addon [addon.cc]
    and the C interface [crosslocale.h], as a shallow embedding.

    Machine data is modelled as the code has it:
    - a [double] is an IEEE-754 binary64 value, [spec_float] with
      precision 53 and maximal exponent 1024; the conversions between
      [double] and the 64-bit integer types are written out (truncation,
      round to nearest even, two's complement wrap-around);
    - a [crosslocale_message] is the tagged struct of [crosslocale.h]; the
      arrays behind [value_list.ptr], [value_dict.keys] and
      [value_dict.values] are lists of cells, [None] being a cell that was
      allocated by [new T[len]] but never written (its content is
      indeterminate);
    - a JS value is what [Napi::Value::Type] distinguishes; a JS object is
      its list of own enumerable properties in the order of
      [[OwnPropertyKeys]] (array-index keys ascending, then the other
      string keys in creation order), which is the order in which
      [GetPropertyNames] lists them;
    - JS strings and the UTF-8 byte strings of the C interface are both
      modelled by their text, a [string]: the UTF-16/UTF-8 transcoding done
      by V8 is the identity on well-formed text. *)

From Stdlib Require Import String Ascii ZArith List Bool Lia.
From Stdlib Require Import Floats.SpecFloat Sorting.Permutation.
Import ListNotations.
Open Scope Z_scope.
Set Warnings "-register-all".

(** ** Doubles and the numeric conversions of C++ *)

Definition double := spec_float.

(** [(double)x] for an [int64_t x]: round to nearest, ties to even. *)
Definition cast_double_of_i64 (x : Z) : double :=
  binary_normalize 53 1024 x 0 false.

(** The truncation of a double towards zero, [None] for NaN and the
    infinities. *)
Definition double_trunc (d : double) : option Z :=
  match d with
  | S754_zero _ => Some 0
  | S754_finite s m e =>
      let t := Z.shiftl (Zpos m) e in Some (if s then - t else t)
  | _ => None
  end.

(** C++ [==] on doubles: IEEE equality ([0.0 == -0.0], [NaN != NaN]). *)
Definition double_eq (a b : double) : bool := SFeqb a b.

(** [(int64_t)u] for a [uint64_t u] (modular since C++20). *)
Definition cast_i64_of_u64 (u : Z) : Z :=
  if u <? 2 ^ 63 then u else u - 2 ^ 64.

Section Conversions.

(** [(uint64_t)d] is undefined behaviour in C++ when the truncated value
    of [d] is not in [0, 2^64) (negative numbers of magnitude at least 1,
    huge numbers, NaN, infinities). What the generated code yields there
    depends on the target: [u64_of_out_of_range] is that choice, reduced
    modulo 2^64 since the result is a [uint64_t]. *)
Variable u64_of_out_of_range : double -> Z.

Definition cast_u64_of_double (d : double) : Z :=
  match double_trunc d with
  | Some t => if (0 <=? t) && (t <? 2 ^ 64) then t
              else u64_of_out_of_range d mod 2 ^ 64
  | None => u64_of_out_of_range d mod 2 ^ 64
  end.

End Conversions.

(** ** Values on both sides of the boundary *)

(** [crosslocale_message_type] and [crosslocale_message]. *)
Inductive crosslocale_message : Type :=
| MESSAGE_NIL
| MESSAGE_BOOL (value_bool : bool)
| MESSAGE_I64 (value_i64 : Z)
| MESSAGE_F64 (value_f64 : double)
| MESSAGE_STR (value_str : string)
| MESSAGE_LIST (value_list : list (option crosslocale_message))
| MESSAGE_DICT (keys : list (option string))
               (values : list (option crosslocale_message))
| MESSAGE_INVALID.

Definition message_type_value (m : crosslocale_message) : Z :=
  match m with
  | MESSAGE_NIL => 0
  | MESSAGE_BOOL _ => 1
  | MESSAGE_I64 _ => 2
  | MESSAGE_F64 _ => 3
  | MESSAGE_STR _ => 4
  | MESSAGE_LIST _ => 5
  | MESSAGE_DICT _ _ => 6
  | MESSAGE_INVALID => -1
  end.

Definition is_invalid (m : crosslocale_message) : bool :=
  match m with MESSAGE_INVALID => true | _ => false end.

(** A JS value, by its [napi_valuetype] (arrays are the objects for which
    [IsArray] holds), as the addon observes it. A string is given by the
    UTF-8 bytes [napi_get_value_string_utf8] writes for it (a lone
    surrogate becomes U+FFFD there). An object that is not an array is
    given by what [GetPropertyNames] and [Get] see of it: its enumerable
    string-keyed properties, own ones first and then the inherited ones,
    in the order [GetPropertyNames] lists them; its class and the rest of
    its prototype chain are not observed. *)
Inductive js_value : Type :=
| JsUndefined
| JsNull
| JsBoolean (b : bool)
| JsNumber (n : double)
| JsString (s : string)
| JsArray (elems : list js_value)
| JsObject (props : list (string * js_value))
| JsSymbol
| JsFunction
| JsExternal
| JsBigInt.

(** A store into a C array: [data[i] = x] (the code only writes in range). *)
Fixpoint array_store {A : Type} (data : list A) (i : nat) (x : A) : list A :=
  match data, i with
  | [], _ => []
  | _ :: rest, O => x :: rest
  | y :: rest, S i' => y :: array_store rest i' x
  end.

(** *** JS property keys *)

Definition digit_value (c : ascii) : option Z :=
  let n := Z.of_nat (nat_of_ascii c) in
  if (48 <=? n) && (n <=? 57) then Some (n - 48) else None.

Fixpoint decimal_value (s : string) (acc : Z) : option Z :=
  match s with
  | EmptyString => Some acc
  | String c rest =>
      match digit_value c with
      | Some d => decimal_value rest (acc * 10 + d)
      | None => None
      end
  end.

(** An array index is the canonical decimal form of an integer below
    2^32 - 1. *)
Definition array_index (s : string) : option Z :=
  match s with
  | EmptyString => None
  | String c rest =>
      if Ascii.eqb c "0"%char && negb (String.eqb rest EmptyString) then None
      else match decimal_value s 0 with
           | Some n => if n <? 2 ^ 32 - 1 then Some n else None
           | None => None
           end
  end.

Fixpoint insert_index_key (props : list (string * js_value)) (k : string)
    (n : Z) (v : js_value) : list (string * js_value) :=
  match props with
  | [] => [(k, v)]
  | (k', v') :: rest =>
      match array_index k' with
      | Some n' => if n <? n' then (k, v) :: props
                   else (k', v') :: insert_index_key rest k n v
      | None => (k, v) :: props
      end
  end.

(** [[Set]] of a key that becomes or stays an own data property of an
    ordinary object: an existing own property keeps its place and gets
    the new value; a new array-index key goes among the array-index keys
    in ascending order, any other new key goes last. *)
Definition js_object_set (props : list (string * js_value)) (k : string)
    (v : js_value) : list (string * js_value) :=
  if existsb (fun '(k', _) => String.eqb k' k) props then
    map (fun '(k', v') => if String.eqb k' k then (k', v) else (k', v')) props
  else match array_index k with
       | Some n => insert_index_key props k n v
       | None => props ++ [(k, v)]
       end.

(** An ordinary object while [to_js_value_impl] fills it: its own
    properties; the enumerable string-keyed properties it inherits, as
    [GetPropertyNames] and [Get] see them on its prototype; and whether
    [Object.prototype], which holds the [__proto__] accessor, is on its
    prototype chain. [Napi::Object::New] gives an object whose prototype
    is [Object.prototype], which has no enumerable property. *)
Record js_object_state : Type := {
  own_props : list (string * js_value);
  inherited_props : list (string * js_value);
  proto_accessor : bool
}.

Definition fresh_object : js_object_state :=
  {| own_props := []; inherited_props := []; proto_accessor := true |}.

Fixpoint decimal_digits (fuel n : nat) (acc : string) : string :=
  match fuel with
  | O => acc
  | S fuel' =>
      let acc' := String (ascii_of_nat (48 + Nat.modulo n 10)) acc in
      if Nat.ltb n 10 then acc' else decimal_digits fuel' (Nat.div n 10) acc'
  end.

(** The decimal form of an array index. *)
Definition decimal_string (n : nat) : string := decimal_digits (S n) n EmptyString.

(** The enumerable own properties of an array: its indices, in order,
    with its elements. *)
Fixpoint index_props (i : nat) (elems : list js_value) : list (string * js_value) :=
  match elems with
  | [] => []
  | e :: rest => (decimal_string i, e) :: index_props (S i) rest
  end.

(** [Napi::Object::Set(key, value)], i.e. [[Set]]: an own property with
    that key gets the value; otherwise the key ["__proto__"] reaches the
    accessor of [Object.prototype] when that is on the chain, and its
    setter makes an object or an array the prototype, removes the
    prototype for [null], and ignores any other value; every other key
    becomes a new own property (inherited properties of the chain are
    writable data properties). [value_accessor] tells whether
    [Object.prototype] is on the prototype chain of [value]. *)
Definition object_set (o : js_object_state) (k : string) (v : js_value)
    (value_accessor : bool) : js_object_state :=
  if existsb (fun '(k', _) => String.eqb k' k) (own_props o)
     || negb (String.eqb k "__proto__") || negb (proto_accessor o)
  then {| own_props := js_object_set (own_props o) k v;
          inherited_props := inherited_props o;
          proto_accessor := proto_accessor o |}
  else match v with
       | JsObject props =>
           {| own_props := own_props o; inherited_props := props;
              proto_accessor := value_accessor |}
       | JsArray elems =>
           {| own_props := own_props o; inherited_props := index_props O elems;
              proto_accessor := true |}
       | JsNull =>
           {| own_props := own_props o; inherited_props := [];
              proto_accessor := false |}
       | _ => o
       end.

(** The object as [GetPropertyNames] ([napi_key_include_prototypes],
    enumerable properties, string keys) and [Get] see it: the own
    properties, then the inherited ones no own property shadows. *)
Definition object_view (o : js_object_state) : list (string * js_value) :=
  own_props o ++
  filter (fun p => negb (existsb (fun '(k', _) => String.eqb k' (fst p)) (own_props o)))
    (inherited_props o).

(** *** UTF-8 as V8 decodes it *)

(** [Napi::String::New(env, ptr, len)] decodes the bytes as UTF-8 the way
    the WHATWG decoder does (V8's [Utf8Decoder]): each maximal ill-formed
    subsequence becomes U+FFFD. The state of the decoder: the continuation
    bytes still needed, the range allowed for the next one, and the bytes
    of the sequence read so far. *)
Record utf8_decoder : Type := {
  bytes_needed : nat;
  lower_boundary : Z;
  upper_boundary : Z;
  pending_bytes : string
}.

Definition utf8_idle : utf8_decoder :=
  {| bytes_needed := O; lower_boundary := 128; upper_boundary := 191;
     pending_bytes := EmptyString |}.

(** U+FFFD in UTF-8. *)
Definition replacement_character : string :=
  String (ascii_of_nat 239) (String (ascii_of_nat 191) (String (ascii_of_nat 189) EmptyString)).

Inductive utf8_lead : Type :=
| LeadAscii
| LeadMulti (needed : nat) (lower upper : Z)
| LeadInvalid.

Definition utf8_classify (b : Z) : utf8_lead :=
  if b <=? 127 then LeadAscii
  else if (194 <=? b) && (b <=? 223) then LeadMulti 1 128 191
  else if (224 <=? b) && (b <=? 239) then
    LeadMulti 2 (if b =? 224 then 160 else 128) (if b =? 237 then 159 else 191)
  else if (240 <=? b) && (b <=? 244) then
    LeadMulti 3 (if b =? 240 then 144 else 128) (if b =? 244 then 143 else 191)
  else LeadInvalid.

(** A byte read with no sequence under way. *)
Definition utf8_fresh (c : ascii) : string * utf8_decoder :=
  match utf8_classify (Z.of_nat (nat_of_ascii c)) with
  | LeadAscii => (String c EmptyString, utf8_idle)
  | LeadMulti n lo hi =>
      (EmptyString, {| bytes_needed := n; lower_boundary := lo; upper_boundary := hi;
                       pending_bytes := String c EmptyString |})
  | LeadInvalid => (replacement_character, utf8_idle)
  end.

(** One byte: the bytes it emits and the next state. A byte outside the
    allowed range ends the sequence with U+FFFD and is read again. *)
Definition utf8_step (st : utf8_decoder) (c : ascii) : string * utf8_decoder :=
  match bytes_needed st with
  | O => utf8_fresh c
  | S n =>
      let b := Z.of_nat (nat_of_ascii c) in
      if (lower_boundary st <=? b) && (b <=? upper_boundary st) then
        match n with
        | O => (String.append (pending_bytes st) (String c EmptyString), utf8_idle)
        | S _ => (EmptyString,
                  {| bytes_needed := n; lower_boundary := 128; upper_boundary := 191;
                     pending_bytes := String.append (pending_bytes st) (String c EmptyString) |})
        end
      else let '(out, st') := utf8_fresh c in
           (String.append replacement_character out, st')
  end.

Fixpoint utf8_sanitize_from (st : utf8_decoder) (s : string) : string :=
  match s with
  | EmptyString =>
      match bytes_needed st with O => EmptyString | S _ => replacement_character end
  | String c rest =>
      let '(out, st') := utf8_step st c in String.append out (utf8_sanitize_from st' rest)
  end.

(** The UTF-8 bytes of the JS string [Napi::String::New] creates from
    bytes [s]. *)
Definition utf8_sanitize (s : string) : string := utf8_sanitize_from utf8_idle s.

(** Well-formed UTF-8: the decoder never emits U+FFFD. *)
Fixpoint utf8_valid_from (st : utf8_decoder) (s : string) : bool :=
  match s with
  | EmptyString => Nat.eqb (bytes_needed st) 0
  | String c rest =>
      let b := Z.of_nat (nat_of_ascii c) in
      match bytes_needed st with
      | O => match utf8_classify b with LeadInvalid => false | _ => true end
      | S _ => (lower_boundary st <=? b) && (b <=? upper_boundary st)
      end && utf8_valid_from (snd (utf8_step st c)) rest
  end.

Definition utf8_valid (s : string) : bool := utf8_valid_from utf8_idle s.

(** ** The codec of [addon.cc] *)

Section Codec.

Variable u64_of_out_of_range : double -> Z.

(** The [napi_number] case of [BackendMessageFromJs::from_js_value_impl]:
    [int64_t n_int = (uint64_t)n_float;
     if ((double)n_int == n_float) I64 else F64]. *)
Definition number_message (n_float : double) : crosslocale_message :=
  let n_int := cast_i64_of_u64 (cast_u64_of_double u64_of_out_of_range n_float) in
  if double_eq (cast_double_of_i64 n_int) n_float
  then MESSAGE_I64 n_int
  else MESSAGE_F64 n_float.

(** The array loop of [from_js_value_impl]:
    [for (i = 0; i < len; i++) { element = from_js_value_impl(js_array.Get(i));
       if (element.type != CROSSLOCALE_MESSAGE_INVALID) data[i] = element; }] *)
Fixpoint fill_list (encode : js_value -> crosslocale_message) (i : nat)
    (es : list js_value) (data : list (option crosslocale_message))
    : list (option crosslocale_message) :=
  match es with
  | [] => data
  | e :: es' =>
      let element := encode e in
      fill_list encode (S i) es'
        (if is_invalid element then data else array_store data i (Some element))
  end.

(** The object loop of [from_js_value_impl], over the keys of
    [GetPropertyNames] and the values [js_object.Get(js_key)]:
    [if (value.type != CROSSLOCALE_MESSAGE_INVALID)
       { keys[i] = from_js_str(js_key); values[i] = value; }] *)
Fixpoint fill_dict (encode : js_value -> crosslocale_message) (i : nat)
    (ps : list (string * js_value)) (keys : list (option string))
    (values : list (option crosslocale_message)) : crosslocale_message :=
  match ps with
  | [] => MESSAGE_DICT keys values
  | (js_key, v) :: ps' =>
      let value := encode v in
      if is_invalid value then fill_dict encode (S i) ps' keys values
      else fill_dict encode (S i) ps' (array_store keys i (Some js_key))
             (array_store values i (Some value))
  end.

(** [BackendMessageFromJs::from_js_value_impl]. For an array of length
    [len] it allocates [len] cells ([new crosslocale_message[len]]) and
    runs [fill_list]; for an object it allocates the [keys] and [values]
    arrays and runs [fill_dict]. *)
Fixpoint from_js_value_impl (value : js_value) : crosslocale_message :=
  match value with
  | JsUndefined | JsNull => MESSAGE_NIL
  | JsBoolean b => MESSAGE_BOOL b
  | JsNumber n => number_message n
  | JsString s => MESSAGE_STR s
  | JsArray elems =>
      MESSAGE_LIST (fill_list from_js_value_impl O elems
                      (repeat None (List.length elems)))
  | JsObject props =>
      fill_dict from_js_value_impl O props
        (repeat None (List.length props)) (repeat None (List.length props))
  | JsSymbol | JsFunction | JsExternal | JsBigInt => MESSAGE_INVALID
  end.

End Codec.

(** The list loop of [to_js_value_impl]: every element is converted and
    stored at its index; an exception in any of them propagates. *)
Fixpoint list_to_js (decode : crosslocale_message -> option js_value)
    (cells : list (option crosslocale_message)) : option (list js_value) :=
  match cells with
  | [] => Some []
  | Some value :: rest =>
      match decode value, list_to_js decode rest with
      | Some js, Some jss => Some (js :: jss)
      | _, _ => None
      end
  | None :: _ => None
  end.

(** Whether [Object.prototype] is on the prototype chain of the object
    [to_js_value_impl] builds for a dict: the [__proto__] assignments of
    [object_set], followed on the keys alone. *)
Fixpoint object_prototype_on_chain (raw : crosslocale_message) : bool :=
  match raw with
  | MESSAGE_DICT keys values =>
      let fix go (own : list string) (on_chain : bool) (ks : list (option string))
          (vs : list (option crosslocale_message)) {struct vs} : bool :=
        match ks, vs with
        | Some key :: ks', Some value :: vs' =>
            let k := utf8_sanitize key in
            if existsb (String.eqb k) own || negb (String.eqb k "__proto__")
               || negb on_chain
            then go (k :: own) on_chain ks' vs'
            else go own (match value with
                         | MESSAGE_DICT _ _ => object_prototype_on_chain value
                         | MESSAGE_LIST _ => true
                         | MESSAGE_NIL => false
                         | _ => on_chain
                         end) ks' vs'
        | _, _ => on_chain
        end in
      go [] true keys values
  | _ => true
  end.

(** The dict loop of [to_js_value_impl]:
    [js_object.Set(Napi::String::New(env, key.ptr, key.len), js_value)]. *)
Fixpoint dict_to_js (decode : crosslocale_message -> option js_value)
    (accessor : crosslocale_message -> bool) (obj : js_object_state)
    (ks : list (option string)) (vs : list (option crosslocale_message)) {struct vs}
    : option js_object_state :=
  match ks, vs with
  | [], [] => Some obj
  | Some key :: ks', Some value :: vs' =>
      match decode value with
      | Some js =>
          dict_to_js decode accessor
            (object_set obj (utf8_sanitize key) js (accessor value)) ks' vs'
      | None => None
      end
  | _, _ => None
  end.

(** [BackendMessage::to_js_value_impl]. [None] stands for the
    [std::logic_error] thrown on [CROSSLOCALE_MESSAGE_INVALID]; a cell that
    was never written cannot be read (it is indeterminate), and is reported
    the same way. A string goes through [Napi::String::New]. A list becomes
    an array of the same length (V8 arrays hold fewer than 2^32 elements,
    so only the first loop of the source is reachable); a dict is built by
    [Set] on a fresh object, in order. *)
Fixpoint to_js_value_impl (raw : crosslocale_message) : option js_value :=
  match raw with
  | MESSAGE_NIL => Some JsNull
  | MESSAGE_BOOL b => Some (JsBoolean b)
  | MESSAGE_I64 x => Some (JsNumber (cast_double_of_i64 x))
  | MESSAGE_F64 d => Some (JsNumber d)
  | MESSAGE_STR s => Some (JsString (utf8_sanitize s))
  | MESSAGE_LIST ptr => option_map JsArray (list_to_js to_js_value_impl ptr)
  | MESSAGE_DICT keys values =>
      option_map (fun o => JsObject (object_view o))
        (dict_to_js to_js_value_impl object_prototype_on_chain fresh_object keys values)
  | MESSAGE_INVALID => None
  end.

(** [BackendMessage::to_js_value]. *)
Definition to_js_value (raw : crosslocale_message) : option js_value :=
  to_js_value_impl raw.

(** ** Result codes and errors *)

(** [crosslocale_result] of [crosslocale.h]. *)
Inductive crosslocale_result : Type :=
| CROSSLOCALE_OK
| CROSSLOCALE_ERR_GENERIC_RUST_PANIC
| CROSSLOCALE_ERR_BACKEND_DISCONNECTED
| CROSSLOCALE_ERR_SPAWN_THREAD_FAILED.

Definition crosslocale_result_value (c : crosslocale_result) : Z :=
  match c with
  | CROSSLOCALE_OK => 0
  | CROSSLOCALE_ERR_GENERIC_RUST_PANIC => 1
  | CROSSLOCALE_ERR_BACKEND_DISCONNECTED => 2
  | CROSSLOCALE_ERR_SPAWN_THREAD_FAILED => 4
  end.

(** The members of the enumeration, in declaration order. *)
Definition crosslocale_results : list crosslocale_result :=
  [CROSSLOCALE_OK; CROSSLOCALE_ERR_GENERIC_RUST_PANIC;
   CROSSLOCALE_ERR_BACKEND_DISCONNECTED; CROSSLOCALE_ERR_SPAWN_THREAD_FAILED].

Definition result_is_ok (c : crosslocale_result) : bool :=
  match c with CROSSLOCALE_OK => true | _ => false end.

(** The error taxonomy in the words of the specification (section 4.1), to
    be compared with [crosslocale_result]. *)
Inductive spec_error_code : Type :=
| Spec_OK
| Spec_GENERIC_PANIC
| Spec_BACKEND_DISCONNECTED
| Spec_NON_UTF8_STRING
| Spec_SPAWN_THREAD_FAILED.

(** A JS [Error] object built by [FfiBackendException::to_node_error]:
    its message, its [errno] property and its [code] property ([None]
    when the property is not set). *)
Record node_error : Type := {
  error_message : string;
  error_errno : Z;
  error_code : option string
}.

(** What a call from JS into the addon ends in. [EscapedFfiException] is
    an [FfiBackendException] leaving the callback: node-addon-api converts
    only [Napi::Error] exceptions into JS exceptions, so such an exception
    is never turned into a JS error carrying the code. [EscapedLogicError]
    is the [std::logic_error] of [to_js_value_impl]. *)
Inductive call_outcome : Type :=
| Returned (v : js_value)
| Constructed
| ThrewError (e : node_error)
| ThrewTypeError (message : string)
| ThrewErrorMessage (message : string)
| EscapedFfiException (code : crosslocale_result)
| EscapedLogicError.

Section Adapter.

(** The lookups of the library, [crosslocale_error_description] and
    [crosslocale_error_id_str] ([None] for a null pointer). *)
Variable crosslocale_error_description : crosslocale_result -> string.
Variable crosslocale_error_id_str : crosslocale_result -> option string.
Variable u64_of_out_of_range : double -> Z.

(** [FfiBackendException::to_node_error]. *)
Definition to_node_error (code : crosslocale_result) : node_error :=
  {| error_message := crosslocale_error_description code;
     error_errno := crosslocale_result_value code;
     error_code := crosslocale_error_id_str code |}.

(** [throw_ffi_result] followed by the [catch] of the JS-facing methods:
    [throw e.to_node_error(env)]. *)
Definition translate_ffi_result (res : crosslocale_result) (ok : call_outcome)
    : call_outcome :=
  if result_is_ok res then ok else ThrewError (to_node_error res).

(** [NodeBackend::NodeBackend]: [std::make_shared<FfiBackend>()] calls
    [crosslocale_backend_new], whose result [backend_new] goes through
    [throw_ffi_result] with no [catch] around it. *)
Definition NodeBackend_new (argc : nat) (backend_new : crosslocale_result)
    : call_outcome :=
  if negb (Nat.eqb argc 0) then ThrewTypeError "constructor()"
  else if result_is_ok backend_new then Constructed
  else EscapedFfiException backend_new.

(** [init_logging]: [FfiBackend::init_logging()] with no [catch]. *)
Definition init_logging (res : crosslocale_result) : call_outcome :=
  if result_is_ok res then Returned JsUndefined else EscapedFfiException res.

(** [NodeBackend::send_message]: the argument is encoded and handed to
    [crosslocale_backend_send_message], modelled by [backend_send]. *)
Definition NodeBackend_send_message
    (backend_send : crosslocale_message -> crosslocale_result)
    (args : list js_value) : call_outcome :=
  match args with
  | [value] =>
      let message := from_js_value_impl u64_of_out_of_range value in
      translate_ffi_result (backend_send message) (Returned JsUndefined)
  | _ => ThrewTypeError "send_message(value: any): void"
  end.

(** [NodeBackend::recv_message_sync]; [backend_recv] is the result code of
    [crosslocale_backend_recv_message] and the message it wrote. *)
Definition NodeBackend_recv_message_sync (argc : nat)
    (backend_recv : crosslocale_result * crosslocale_message) : call_outcome :=
  if negb (Nat.eqb argc 0) then ThrewTypeError "recv_message_sync(): any"
  else let '(res, message) := backend_recv in
       if result_is_ok res then
         match to_js_value message with
         | Some v => Returned v
         | None => EscapedLogicError
         end
       else ThrewError (to_node_error res).

(** [NodeBackend::close]. *)
Definition NodeBackend_close (argc : nat) (backend_close : crosslocale_result)
    : call_outcome :=
  if negb (Nat.eqb argc 0) then ThrewTypeError "close(): void"
  else translate_ffi_result backend_close (Returned JsUndefined).

(** [NodeBackend::is_closed]. *)
Definition NodeBackend_is_closed (argc : nat)
    (backend_is_closed : crosslocale_result * bool) : call_outcome :=
  if negb (Nat.eqb argc 0) then ThrewTypeError "close(): void"
  else let '(res, closed) := backend_is_closed in
       translate_ffi_result res (Returned (JsBoolean closed)).

End Adapter.

(** ** Module initialisation *)

Definition SUPPORTED_FFI_BRIDGE_VERSION : Z := 3.

(** The constants the library exports. *)
Record library_constants : Type := {
  CROSSLOCALE_FFI_BRIDGE_VERSION : Z;
  CROSSLOCALE_VERSION : string;
  CROSSLOCALE_NICE_VERSION : string;
  CROSSLOCALE_PROTOCOL_VERSION : Z
}.

Inductive export_value : Type :=
| ExportNumber (n : Z)
| ExportString (s : string)
| ExportFunction (name : string)
| ExportClass (name : string) (methods : list string).

Definition exports_object : Type := list (string * export_value).

(** [exports.Set(key, value)]. *)
Definition exports_set (exports : exports_object) (k : string)
    (v : export_value) : exports_object :=
  if existsb (fun '(k', _) => String.eqb k' k) exports then
    map (fun '(k', v') => if String.eqb k' k then (k', v) else (k', v')) exports
  else exports ++ [(k, v)].

Fixpoint exports_get (exports : exports_object) (k : string)
    : option export_value :=
  match exports with
  | [] => None
  | (k', v) :: rest => if String.eqb k' k then Some v else exports_get rest k
  end.

Definition Backend_methods : list string :=
  ["send_message"%string; "recv_message"%string; "recv_message_sync"%string;
   "close"%string; "is_closed"%string].

(** [NodeBackend::Init]: installs the class [Backend]. *)
Definition NodeBackend_Init (exports : exports_object) : exports_object :=
  exports_set exports "Backend" (ExportClass "Backend" Backend_methods).

Inductive init_outcome : Type :=
| InitReturned
| InitThrew (message : string).

Definition incompatible_version_message : string :=
  "Incompatible FFI bridge version! Check if a correct crosslocale dynamic library is installed!".

(** [Init]: the outcome and the [exports] object afterwards. *)
Definition Init (lib : library_constants) (exports : exports_object)
    : init_outcome * exports_object :=
  if negb (CROSSLOCALE_FFI_BRIDGE_VERSION lib =? SUPPORTED_FFI_BRIDGE_VERSION)
  then (InitThrew incompatible_version_message, exports)
  else
    let exports := exports_set exports "FFI_BRIDGE_VERSION"
                     (ExportNumber (CROSSLOCALE_FFI_BRIDGE_VERSION lib)) in
    let exports := exports_set exports "VERSION"
                     (ExportString (CROSSLOCALE_VERSION lib)) in
    let exports := exports_set exports "NICE_VERSION"
                     (ExportString (CROSSLOCALE_NICE_VERSION lib)) in
    let exports := exports_set exports "PROTOCOL_VERSION"
                     (ExportNumber (CROSSLOCALE_PROTOCOL_VERSION lib)) in
    let exports := exports_set exports "init_logging"
                     (ExportFunction "init_logging") in
    (InitReturned, NodeBackend_Init exports).

(** ** Asynchronous receive: [NodeRecvMessageWorker] *)

Section AsyncRecv.

Variable crosslocale_error_description : crosslocale_result -> string.
Variable crosslocale_error_id_str : crosslocale_result -> option string.

(** The state of a [NodeRecvMessageWorker] after [Execute]. *)
Record recv_worker_state : Type := {
  has_error : bool;
  message : option crosslocale_message;
  error : crosslocale_result
}.

(** [Execute], run on a thread of the libuv pool: [recv] is the result of
    the blocking [crosslocale_backend_recv_message] and the message it
    wrote; a non-OK result is thrown by [throw_ffi_result] and caught. *)
Definition Execute (recv : crosslocale_result * crosslocale_message)
    : recv_worker_state :=
  let '(res, msg) := recv in
  if result_is_ok res
  then {| has_error := false; message := Some msg; error := CROSSLOCALE_OK |}
  else {| has_error := true; message := None; error := res |}.

(** An argument passed to the JS callback. *)
Inductive callback_arg : Type :=
| ArgValue (v : js_value)
| ArgError (e : node_error).

(** [GetResult]; [None] when [to_js_value] throws. *)
Definition GetResult (w : recv_worker_state) : option (list callback_arg) :=
  if negb (has_error w) then
    match message w with
    | Some m =>
        match to_js_value m with
        | Some v => Some [ArgValue JsNull; ArgValue v]
        | None => None
        end
    | None => None
    end
  else Some [ArgError (to_node_error crosslocale_error_description
                         crosslocale_error_id_str (error w))].

(** The arguments of [recv_message]; a JS function is named by a number. *)
Inductive recv_arg : Type :=
| RecvArgFunction (callback : nat)
| RecvArgValue (v : js_value).

(** The event loop as seen by the workers: callbacks whose worker is
    queued for the pool, workers whose [Execute] has finished, and the
    calls made to the JS callbacks so far. *)
Record event_loop : Type := {
  work_queue : list nat;
  completed : list (nat * recv_worker_state);
  callback_calls : list (nat * list callback_arg)
}.

Definition empty_event_loop : event_loop :=
  {| work_queue := []; completed := []; callback_calls := [] |}.

(** [NodeBackend::recv_message] on the main thread: [worker->Queue()]
    hands the worker to the pool and the call returns. *)
Definition recv_message_call (args : list recv_arg) (s : event_loop)
    : call_outcome * event_loop :=
  match args with
  | [RecvArgFunction cb] =>
      (Returned JsUndefined,
       {| work_queue := work_queue s ++ [cb]; completed := completed s;
          callback_calls := callback_calls s |})
  | _ => (ThrewTypeError "recv_message(callback: Function): void", s)
  end.

Inductive thread : Type := MainThread | PoolThread.

Inductive loop_event : Type :=
| EvRecvMessageCall (args : list recv_arg) (result : call_outcome)
| EvBlockingRecv (recv : crosslocale_result * crosslocale_message)
| EvCallback (callback : nat) (args : list callback_arg).

(** One step of the process: a JS call of [recv_message] on the main
    thread; [Execute] of a queued worker on a pool thread (the pool takes
    queued work in any order); and, on the main thread, the completion of
    a worker, where [Napi::AsyncWorker::OnOK] calls the callback with
    [GetResult] (the worker never calls [SetError]). *)
Inductive loop_step : event_loop -> thread -> loop_event -> event_loop -> Prop :=
| StepRecvMessage : forall s args,
    loop_step s MainThread
      (EvRecvMessageCall args (fst (recv_message_call args s)))
      (snd (recv_message_call args s))
| StepExecute : forall s q1 cb q2 recv,
    work_queue s = q1 ++ cb :: q2 ->
    loop_step s PoolThread (EvBlockingRecv recv)
      {| work_queue := q1 ++ q2;
         completed := completed s ++ [(cb, Execute recv)];
         callback_calls := callback_calls s |}
| StepComplete : forall s c1 cb w c2 args,
    completed s = c1 ++ (cb, w) :: c2 ->
    GetResult w = Some args ->
    loop_step s MainThread (EvCallback cb args)
      {| work_queue := work_queue s; completed := c1 ++ c2;
         callback_calls := callback_calls s ++ [(cb, args)] |}.

Inductive reachable : event_loop -> Prop :=
| reachable_init : reachable empty_event_loop
| reachable_step : forall s t e s',
    reachable s -> loop_step s t e s' -> reachable s'.

End AsyncRecv.

(** ** The library's send entry point *)

(** The states of a bridge handle (specification, section 4.4). *)
Inductive bridge_state : Type := Open | ClosedLocally | Disconnected.

(** Modelled from the spec: [crosslocale_backend_send_message], whose
    implementation is not part of these sources. Sections 4.4 and 6: [send]
    succeeds in [Open] and fails with [BACKEND_DISCONNECTED] in
    [ClosedLocally] and [Disconnected]; the message is opaque to it. *)
Definition spec_backend_send_message (st : bridge_state)
    (message : crosslocale_message) : crosslocale_result :=
  match st with
  | Open => CROSSLOCALE_OK
  | ClosedLocally | Disconnected => CROSSLOCALE_ERR_BACKEND_DISCONNECTED
  end.

(** ** Reading aids for the statements *)

(** The cell written for one element by [fill_list], [None] when the
    element's encoding is invalid and the cell is left unwritten. *)
Definition encode_cell (encode : js_value -> crosslocale_message)
    (e : js_value) : option crosslocale_message :=
  let m := encode e in if is_invalid m then None else Some m.

Definition key_cell (encode : js_value -> crosslocale_message)
    (p : string * js_value) : option string :=
  if is_invalid (encode (snd p)) then None else Some (fst p).

(** The list encoding in the words of the specification: the children
    whose encoding is [Invalid] are omitted, the others keep their order. *)
Definition spec_encode_list (encode : js_value -> crosslocale_message)
    (elems : list js_value) : crosslocale_message :=
  MESSAGE_LIST (map Some (filter (fun m => negb (is_invalid m)) (map encode elems))).

(** The number classification in the words of the specification: convert
    to a 64-bit integer (truncation, possible when the truncated value lies
    in [-2^63, 2^63)) and back, and compare. *)
Definition spec_number_message (d : double) : crosslocale_message :=
  match double_trunc d with
  | Some t =>
      if (- 2 ^ 63 <=? t) && (t <? 2 ^ 63) && double_eq (cast_double_of_i64 t) d
      then MESSAGE_I64 t else MESSAGE_F64 d
  | None => MESSAGE_F64 d
  end.

(** The out-of-range [(uint64_t)d] of AArch64 ([fcvtzu] saturates:
    negative values and NaN give 0, too large values give 2^64 - 1). *)
Definition u64_saturating (d : double) : Z :=
  match double_trunc d with
  | Some t => if t <? 0 then 0 else 2 ^ 64 - 1
  | None => match d with S754_infinity false => 2 ^ 64 - 1 | _ => 0 end
  end.

(** The out-of-range [(uint64_t)d] of x86-64 compilers that emit
    [cvttsd2si]: the two's complement of the truncation when it fits in
    64 bits, else 2^63. *)
Definition u64_x86_64 (d : double) : Z :=
  match double_trunc d with
  | Some t => if (- 2 ^ 63 <=? t) && (t <? 2 ^ 63) then t mod 2 ^ 64 else 2 ^ 63
  | None => 2 ^ 63
  end.

(** A double with a nonzero fractional part. *)
Definition double_has_fraction (d : double) : bool :=
  match d with
  | S754_finite _ m e => (e <? 0) && negb (Zpos m mod 2 ^ (- e) =? 0)
  | _ => false
  end.

(** A property key that [Set] stores as an ordinary string key at the end
    of the property order. *)
Definition plain_key (k : string) : bool :=
  negb (String.eqb k "__proto__") &&
  match array_index k with None => true | Some _ => false end.

Fixpoint distinct_strings (ks : list string) : bool :=
  match ks with
  | [] => true
  | k :: ks' => negb (existsb (String.eqb k) ks') && distinct_strings ks'
  end.

(** The keys of the written cells of a [keys] array. *)
Definition key_list (keys : list (option string)) : list string :=
  flat_map (fun c => match c with Some k => [k] | None => [] end) keys.

(** The tagged values for which the round trip through JS is claimed
    after correction, for [Int64] payloads from [lo] up: no [Invalid]
    anywhere and no unwritten cell; strings and [Dict] keys well-formed
    UTF-8; [Int64] payloads in [lo, 2^53]; [Float64] payloads NaN,
    infinite or with a fractional part; [Dict] keys pairwise distinct
    plain keys. *)
Fixpoint round_trippable (lo : Z) (m : crosslocale_message) : bool :=
  match m with
  | MESSAGE_NIL | MESSAGE_BOOL _ => true
  | MESSAGE_STR s => utf8_valid s
  | MESSAGE_I64 x => (lo <=? x) && (x <=? 2 ^ 53)
  | MESSAGE_F64 d =>
      match d with
      | S754_nan | S754_infinity _ => true
      | _ => double_has_fraction d
      end
  | MESSAGE_LIST ptr =>
      let fix all_ok (cells : list (option crosslocale_message)) : bool :=
        match cells with
        | [] => true
        | Some v :: rest => round_trippable lo v && all_ok rest
        | None :: _ => false
        end in
      all_ok ptr
  | MESSAGE_DICT keys values =>
      let fix all_ok (ks : list (option string))
          (vs : list (option crosslocale_message)) {struct vs} : bool :=
        match ks, vs with
        | [], [] => true
        | Some k :: ks', Some v :: vs' =>
            plain_key k && utf8_valid k && round_trippable lo v && all_ok ks' vs'
        | _, _ => false
        end in
      all_ok keys values &&
      distinct_strings (key_list keys)
  | MESSAGE_INVALID => false
  end.

(** The out-of-range [(uint64_t)n_float] agrees, on the negative values
    of [int64_t], with the conversion the encoder intends,
    [(int64_t)n_float] (its variable [n_int] is an [int64_t]): the
    truncation modulo 2^64. x86-64 has it ([u64_x86_64]), AArch64 does
    not ([u64_saturating]). *)
Definition signed_out_of_range (oor : double -> Z) : Prop :=
  forall d t, double_trunc d = Some t -> - 2 ^ 63 <= t < 0 ->
  oor d mod 2 ^ 64 = t mod 2 ^ 64.

(** A property of every written cell of an array of messages. *)
Fixpoint cells_all (P : crosslocale_message -> Prop)
    (cells : list (option crosslocale_message)) : Prop :=
  match cells with
  | [] => True
  | Some v :: rest => P v /\ cells_all P rest
  | None :: rest => cells_all P rest
  end.

(** The round trip of a message through JS: decoding it and encoding the
    result gives it back. *)
Definition round_trips (oor : double -> Z) (lo : Z) (m : crosslocale_message) : Prop :=
  round_trippable lo m = true ->
  option_map (from_js_value_impl oor) (to_js_value_impl m) = Some m.

(** ** Freeing an encoded message: [BackendMessageFromJs::free_raw_value] *)

(** A block allocated with [new[]] by [from_js_value_impl] and released
    with [delete[]] by [free_raw_value]: the bytes of a string payload, the
    cell array of a list, the bytes of a dict key, the key and value arrays
    of a dict. *)
Inductive heap_block : Type :=
| BlockStr (s : string)
| BlockListArray (len : nat)
| BlockKey (s : string)
| BlockDictKeys (len : nat)
| BlockDictValues (len : nat).

(** The list loop of [free_raw_value]:
    [for (i = 0; i < len; i++) free_raw_value(raw.as.value_list.ptr[i]);].
    Reading a cell that was never written is undefined behaviour, [None]. *)
Fixpoint free_cells (free : crosslocale_message -> option (list heap_block))
    (cells : list (option crosslocale_message)) : option (list heap_block) :=
  match cells with
  | [] => Some []
  | Some value :: rest =>
      match free value, free_cells free rest with
      | Some b, Some bs => Some (b ++ bs)
      | _, _ => None
      end
  | None :: _ => None
  end.

(** The dict loop of [free_raw_value]:
    [delete[] raw.as.value_dict.keys[i].ptr;
     free_raw_value(raw.as.value_dict.values[i]);]. *)
Fixpoint free_dict_cells (free : crosslocale_message -> option (list heap_block))
    (ks : list (option string)) (vs : list (option crosslocale_message)) {struct vs}
    : option (list heap_block) :=
  match ks, vs with
  | [], [] => Some []
  | Some key :: ks', Some value :: vs' =>
      match free value, free_dict_cells free ks' vs' with
      | Some b, Some bs => Some (BlockKey key :: b ++ bs)
      | _, _ => None
      end
  | _, _ => None
  end.

(** [BackendMessageFromJs::free_raw_value]: the blocks it deletes, in
    order, or [None] when it reads an unwritten cell. *)
Fixpoint free_raw_value (raw : crosslocale_message) : option (list heap_block) :=
  match raw with
  | MESSAGE_NIL | MESSAGE_BOOL _ | MESSAGE_I64 _ | MESSAGE_F64 _ => Some []
  | MESSAGE_STR s => Some [BlockStr s]
  | MESSAGE_LIST ptr =>
      match free_cells free_raw_value ptr with
      | Some bs => Some (bs ++ [BlockListArray (List.length ptr)])
      | None => None
      end
  | MESSAGE_DICT keys values =>
      match free_dict_cells free_raw_value keys values with
      | Some bs => Some (bs ++ [BlockDictKeys (List.length values);
                                BlockDictValues (List.length values)])
      | None => None
      end
  | MESSAGE_INVALID => Some []
  end.

(** The blocks [from_js_value_impl] allocates with [new[]], in order: the
    bytes of a string ([from_js_str]); the cell array of an array, then
    what its elements allocate; the key and value arrays of an object, then
    for each property what its value allocates and, when that value is not
    [Invalid], the bytes of its key. *)
Fixpoint from_js_allocations (oor : double -> Z) (value : js_value) : list heap_block :=
  match value with
  | JsString s => [BlockStr s]
  | JsArray elems =>
      BlockListArray (List.length elems) :: flat_map (from_js_allocations oor) elems
  | JsObject props =>
      BlockDictKeys (List.length props) :: BlockDictValues (List.length props) ::
      flat_map (fun p => from_js_allocations oor (snd p) ++
                  (if is_invalid (from_js_value_impl oor (snd p)) then []
                   else [BlockKey (fst p)])) props
  | _ => []
  end.

(** ** Predicates on JS values and messages *)

(** The JS values that [from_js_value_impl] maps to [Invalid]. *)
Definition unrepresentable (v : js_value) : bool :=
  match v with
  | JsSymbol | JsFunction | JsExternal | JsBigInt => true
  | _ => false
  end.

(** No array element and no property value, at any depth, is
    unrepresentable (the value itself may be). *)
Fixpoint children_representable (v : js_value) : bool :=
  match v with
  | JsArray elems =>
      forallb (fun e => negb (unrepresentable e) && children_representable e) elems
  | JsObject props =>
      forallb (fun p => negb (unrepresentable (snd p)) && children_representable (snd p))
        props
  | _ => true
  end.

(** A message [to_js_value_impl] can read entirely: no [Invalid] anywhere,
    no unwritten cell, and as many keys as values in every dict. *)
Fixpoint decodable (m : crosslocale_message) : bool :=
  match m with
  | MESSAGE_INVALID => false
  | MESSAGE_LIST ptr =>
      forallb (fun c => match c with Some v => decodable v | None => false end) ptr
  | MESSAGE_DICT keys values =>
      (List.length keys =? List.length values)%nat &&
      forallb (fun c => match c with Some _ => true | None => false end) keys &&
      forallb (fun c => match c with Some v => decodable v | None => false end) values
  | _ => true
  end.

(** ** Runs of the event loop *)

Section AsyncRuns.

Variable crosslocale_error_description : crosslocale_result -> string.
Variable crosslocale_error_id_str : crosslocale_result -> option string.

(** A sequence of steps of [loop_step] and the events it shows. *)
Inductive loop_run : event_loop -> list loop_event -> event_loop -> Prop :=
| run_nil : forall s, loop_run s [] s
| run_cons : forall s t e s' evs s'',
    loop_step crosslocale_error_description crosslocale_error_id_str s t e s' ->
    loop_run s' evs s'' -> loop_run s (e :: evs) s''.

End AsyncRuns.

(** The calls of [recv_message] with the callback [cb] among [evs]. *)
Definition recv_requests (cb : nat) (evs : list loop_event) : nat :=
  List.length (filter (fun e => match e with
                                | EvRecvMessageCall [RecvArgFunction cb'] _ => Nat.eqb cb' cb
                                | _ => false
                                end) evs).

(** Where the callback [cb] stands in a state: queued workers, finished
    workers not yet reported, and calls already made. *)
Definition callback_accounting (cb : nat) (s : event_loop) : nat :=
  count_occ Nat.eq_dec (work_queue s) cb
  + count_occ Nat.eq_dec (map fst (completed s)) cb
  + count_occ Nat.eq_dec (map fst (callback_calls s)) cb.

(** * Properties *)

(** ** Lemmas on the C arrays *)

Lemma array_store_app {A : Type} (pre rest : list A) (x y : A) :
  array_store (pre ++ y :: rest) (length pre) x = pre ++ x :: rest.
Proof. induction pre as [|a pre IH]; simpl; [reflexivity | now rewrite IH]. Qed.

Lemma app_cons_assoc {A : Type} (pre rest : list A) (x : A) :
  pre ++ x :: rest = (pre ++ [x]) ++ rest.
Proof. now rewrite <- app_assoc. Qed.

Lemma length_snoc {A : Type} (pre : list A) (x : A) :
  length (pre ++ [x]) = S (length pre).
Proof. rewrite length_app; simpl; lia. Qed.

Lemma fill_list_cells (encode : js_value -> crosslocale_message)
    (es : list js_value) (pre : list (option crosslocale_message)) :
  fill_list encode (length pre) es (pre ++ repeat None (length es))
  = pre ++ map (encode_cell encode) es.
Proof.
  revert pre; induction es as [|e es IH]; intros pre; simpl.
  - now rewrite app_nil_r.
  - unfold encode_cell at 1; destruct (is_invalid (encode e)).
    + rewrite app_cons_assoc, <- (length_snoc pre None), IH, <- app_assoc.
      reflexivity.
    + rewrite array_store_app, app_cons_assoc, <- (length_snoc pre (Some (encode e))),
        IH, <- app_assoc; reflexivity.
Qed.

Lemma fill_dict_cells (encode : js_value -> crosslocale_message)
    (ps : list (string * js_value)) (pk : list (option string))
    (pv : list (option crosslocale_message)) :
  length pk = length pv ->
  fill_dict encode (length pv) ps (pk ++ repeat None (length ps))
    (pv ++ repeat None (length ps))
  = MESSAGE_DICT (pk ++ map (key_cell encode) ps)
                 (pv ++ map (fun p => encode_cell encode (snd p)) ps).
Proof.
  revert pk pv; induction ps as [|[k v] ps IH]; intros pk pv Hlen; simpl.
  - now rewrite !app_nil_r.
  - unfold key_cell at 1, encode_cell at 1; simpl.
    destruct (is_invalid (encode v)).
    + specialize (IH (pk ++ [None]) (pv ++ [None])).
      rewrite !length_snoc, <- !app_assoc in IH; simpl in IH.
      apply IH; lia.
    + rewrite (array_store_app pv), <- Hlen, array_store_app, Hlen.
      specialize (IH (pk ++ [Some k]) (pv ++ [Some (encode v)])).
      rewrite !length_snoc, <- !app_assoc in IH; simpl in IH.
      apply IH; lia.
Qed.

(** ** The encoding of arrays and objects *)

Lemma from_js_array_cells (oor : double -> Z) (elems : list js_value) :
  from_js_value_impl oor (JsArray elems)
  = MESSAGE_LIST (map (encode_cell (from_js_value_impl oor)) elems).
Proof.
  cbn [from_js_value_impl].
  exact (f_equal MESSAGE_LIST (fill_list_cells _ elems [])).
Qed.

Lemma from_js_object_cells (oor : double -> Z) (props : list (string * js_value)) :
  from_js_value_impl oor (JsObject props)
  = MESSAGE_DICT (map (key_cell (from_js_value_impl oor)) props)
      (map (fun p => encode_cell (from_js_value_impl oor) (snd p)) props).
Proof.
  cbn [from_js_value_impl].
  exact (fill_dict_cells _ props [] [] eq_refl).
Qed.

(** C1 (code defect). [from_js_value_impl] keeps one cell per array
    element and per object property: the cell of a child whose encoding is
    [Invalid] is left unwritten rather than omitted, so the encoded [List]
    or [Dict] is as long as the input. On [[1, Symbol(), 2]] the [List] has
    three cells and the middle one was never written. *)
Theorem from_js_unrepresentable_child_cells (oor : double -> Z) :
  (forall elems, from_js_value_impl oor (JsArray elems)
     = MESSAGE_LIST (map (encode_cell (from_js_value_impl oor)) elems)) /\
  (forall props, from_js_value_impl oor (JsObject props)
     = MESSAGE_DICT (map (key_cell (from_js_value_impl oor)) props)
         (map (fun p => encode_cell (from_js_value_impl oor) (snd p)) props)) /\
  from_js_value_impl oor
    (JsArray [JsNumber (cast_double_of_i64 1); JsSymbol;
              JsNumber (cast_double_of_i64 2)])
  = MESSAGE_LIST [Some (MESSAGE_I64 1); None; Some (MESSAGE_I64 2)].
Proof.
  split; [|split].
  - apply from_js_array_cells.
  - apply from_js_object_cells.
  - reflexivity.
Qed.

(** ** [undefined] and [null] *)

Lemma to_js_value_never_undefined (m : crosslocale_message) :
  to_js_value m <> Some JsUndefined.
Proof.
  unfold to_js_value; destruct m; simpl; try discriminate.
  - destruct (list_to_js to_js_value_impl value_list); discriminate.
  - destruct (dict_to_js _ _ _ _ _); discriminate.
Qed.

(** C9. Encoding maps both [undefined] and [null] to [Nil], decoding maps
    [Nil] to [null] and no message to [undefined]; so decoding the encoding
    of [undefined] gives [null]. *)
Theorem undefined_round_trips_to_null (oor : double -> Z) :
  from_js_value_impl oor JsUndefined = MESSAGE_NIL /\
  from_js_value_impl oor JsNull = MESSAGE_NIL /\
  to_js_value MESSAGE_NIL = Some JsNull /\
  (forall m, to_js_value m <> Some JsUndefined) /\
  to_js_value (from_js_value_impl oor JsUndefined) = Some JsNull /\
  to_js_value (from_js_value_impl oor JsUndefined) <> Some JsUndefined.
Proof.
  repeat split; try reflexivity.
  - exact to_js_value_never_undefined.
  - apply to_js_value_never_undefined.
Qed.

(** ** Decoding of [Int64] *)

(** C10. Decoding [Int64(x)] gives the JS number [(double)x] (rounded to
    nearest, ties to even); two distinct 64-bit integers above 2^53,
    2^53 + 3 and 2^53 + 4, decode to the same number. *)
Theorem i64_decoding_not_injective :
  (forall x, to_js_value (MESSAGE_I64 x) = Some (JsNumber (cast_double_of_i64 x))) /\
  exists x y, x <> y /\ 2 ^ 53 < Z.abs x /\ 2 ^ 53 < Z.abs y /\
    - 2 ^ 63 <= x < 2 ^ 63 /\ - 2 ^ 63 <= y < 2 ^ 63 /\
    to_js_value (MESSAGE_I64 x) = to_js_value (MESSAGE_I64 y).
Proof.
  split.
  - reflexivity.
  - exists (2 ^ 53 + 3), (2 ^ 53 + 4).
    split; [lia|].
    split; [cbn; lia|].
    split; [cbn; lia|].
    split; [cbn; lia|].
    split; [cbn; lia|].
    vm_compute; reflexivity.
Qed.

(** ** The result enumeration *)

Ltac collide Hf :=
  match goal with
  | E1 : ?f ?a = ?c, E2 : ?f ?b = ?c |- _ =>
      assert (a = b) by (apply Hf; congruence); discriminate
  end.

(** C5 (as stated, refuted). The five codes of the specification cannot
    all be distinct members of [crosslocale_result]: it has four. *)
Lemma five_codes_not_members :
  ~ exists f : spec_error_code -> crosslocale_result,
      forall a b, f a = f b -> a = b.
Proof.
  intros [f Hf].
  destruct (f Spec_OK) eqn:E1, (f Spec_GENERIC_PANIC) eqn:E2,
    (f Spec_BACKEND_DISCONNECTED) eqn:E3, (f Spec_NON_UTF8_STRING) eqn:E4,
    (f Spec_SPAWN_THREAD_FAILED) eqn:E5; collide Hf.
Qed.

(** C5 (corrected). The result enumeration is exactly [CROSSLOCALE_OK] = 0,
    [CROSSLOCALE_ERR_GENERIC_RUST_PANIC] = 1,
    [CROSSLOCALE_ERR_BACKEND_DISCONNECTED] = 2 and
    [CROSSLOCALE_ERR_SPAWN_THREAD_FAILED] = 4, with distinct values; no
    member has the value 3. *)
Theorem crosslocale_result_members :
  (forall c, In c crosslocale_results) /\
  map crosslocale_result_value crosslocale_results = [0; 1; 2; 4] /\
  (forall c c', crosslocale_result_value c = crosslocale_result_value c' -> c = c') /\
  (forall c, crosslocale_result_value c <> 3).
Proof.
  split; [|split; [|split]].
  - intros []; simpl; tauto.
  - reflexivity.
  - intros [] []; simpl; congruence.
  - intros []; simpl; discriminate.
Qed.

(** ** Module initialisation *)

Lemma exports_get_set_same (exports : exports_object) (k : string)
    (v : export_value) :
  exports_get (exports_set exports k v) k = Some v.
Proof.
  unfold exports_set.
  destruct (existsb (fun '(k', _) => String.eqb k' k) exports) eqn:E.
  - induction exports as [|[k' v'] rest IH]; simpl in *; [discriminate|].
    destruct (String.eqb k' k) eqn:Ek; simpl; rewrite Ek; auto.
  - induction exports as [|[k' v'] rest IH]; simpl in *.
    + now rewrite String.eqb_refl.
    + apply orb_false_iff in E as [E1 E2]; rewrite E1; auto.
Qed.

Lemma exports_get_set_other (exports : exports_object) (k k' : string)
    (v : export_value) :
  k' <> k -> exports_get (exports_set exports k v) k' = exports_get exports k'.
Proof.
  intros Hne; unfold exports_set.
  assert (Hb : String.eqb k k' = false) by (apply String.eqb_neq; congruence).
  destruct (existsb (fun '(k0, _) => String.eqb k0 k) exports).
  - induction exports as [|[k0 v0] rest IH]; simpl; [reflexivity|].
    destruct (String.eqb k0 k) eqn:E0; simpl.
    + apply String.eqb_eq in E0; subst k0; rewrite Hb; exact IH.
    + destruct (String.eqb k0 k'); [reflexivity | exact IH].
  - induction exports as [|[k0 v0] rest IH]; simpl.
    + now rewrite Hb.
    + destruct (String.eqb k0 k'); [reflexivity | exact IH].
Qed.

Ltac solve_exports_get :=
  repeat first
    [ rewrite exports_get_set_same; reflexivity
    | rewrite exports_get_set_other by discriminate ].

(** C6. With a library whose bridge version is not 3, [Init] throws
    before any export is set: the [exports] object is left as it was, so
    [Backend] (and with it the constructor) is not installed. With version
    3 it returns with [Backend] and the version constants installed. *)
Theorem init_checks_bridge_version (lib : library_constants)
    (exports : exports_object) :
  (CROSSLOCALE_FFI_BRIDGE_VERSION lib <> 3 ->
     Init lib exports = (InitThrew incompatible_version_message, exports)) /\
  (CROSSLOCALE_FFI_BRIDGE_VERSION lib = 3 ->
     exists exports',
       Init lib exports = (InitReturned, exports') /\
       exports_get exports' "Backend" = Some (ExportClass "Backend" Backend_methods) /\
       exports_get exports' "FFI_BRIDGE_VERSION" = Some (ExportNumber 3) /\
       exports_get exports' "VERSION" = Some (ExportString (CROSSLOCALE_VERSION lib)) /\
       exports_get exports' "NICE_VERSION"
         = Some (ExportString (CROSSLOCALE_NICE_VERSION lib)) /\
       exports_get exports' "PROTOCOL_VERSION"
         = Some (ExportNumber (CROSSLOCALE_PROTOCOL_VERSION lib))).
Proof.
  unfold Init, SUPPORTED_FFI_BRIDGE_VERSION; split; intros Hv.
  - apply Z.eqb_neq in Hv; now rewrite Hv.
  - rewrite Hv, Z.eqb_refl; simpl.
    eexists; split; [reflexivity|].
    unfold NodeBackend_Init.
    repeat split; solve_exports_get.
Qed.

Lemma init_checks_bridge_version_witness :
  Init {| CROSSLOCALE_FFI_BRIDGE_VERSION := 2; CROSSLOCALE_VERSION := "0.1.0";
          CROSSLOCALE_NICE_VERSION := "v0.1.0"; CROSSLOCALE_PROTOCOL_VERSION := 0 |} []
    = (InitThrew incompatible_version_message, []) /\
  exists exports',
    Init {| CROSSLOCALE_FFI_BRIDGE_VERSION := 3; CROSSLOCALE_VERSION := "0.1.0";
            CROSSLOCALE_NICE_VERSION := "v0.1.0"; CROSSLOCALE_PROTOCOL_VERSION := 0 |} []
      = (InitReturned, exports') /\
    exports_get exports' "Backend" = Some (ExportClass "Backend" Backend_methods).
Proof.
  split.
  - apply (proj1 (init_checks_bridge_version
                    {| CROSSLOCALE_FFI_BRIDGE_VERSION := 2; CROSSLOCALE_VERSION := "0.1.0";
                       CROSSLOCALE_NICE_VERSION := "v0.1.0";
                       CROSSLOCALE_PROTOCOL_VERSION := 0 |} [])).
    simpl; discriminate.
  - destruct (proj2 (init_checks_bridge_version
                       {| CROSSLOCALE_FFI_BRIDGE_VERSION := 3; CROSSLOCALE_VERSION := "0.1.0";
                          CROSSLOCALE_NICE_VERSION := "v0.1.0";
                          CROSSLOCALE_PROTOCOL_VERSION := 0 |} []) eq_refl)
      as [exports' [H1 [H2 _]]].
    exists exports'; split; assumption.
Defined.

(** ** Sending a value that has no representation *)

Lemma number_message_not_invalid (oor : double -> Z) (d : double) :
  number_message oor d <> MESSAGE_INVALID.
Proof. unfold number_message; destruct (double_eq _ _); discriminate. Qed.

Lemma fill_dict_not_invalid (encode : js_value -> crosslocale_message) i ps ks vs :
  fill_dict encode i ps ks vs <> MESSAGE_INVALID.
Proof.
  revert i ks vs; induction ps as [|[k v] ps IH]; intros i ks vs; simpl.
  - discriminate.
  - destruct (is_invalid (encode v)); apply IH.
Qed.

Lemma from_js_invalid_iff (oor : double -> Z) (v : js_value) :
  from_js_value_impl oor v = MESSAGE_INVALID <->
  v = JsSymbol \/ v = JsFunction \/ v = JsExternal \/ v = JsBigInt.
Proof.
  split.
  - destruct v; simpl; intros H; try discriminate; auto.
    + exfalso; exact (number_message_not_invalid oor n H).
    + exfalso; exact (fill_dict_not_invalid _ _ _ _ _ H).
  - intros [-> | [-> | [-> | ->]]]; reflexivity.
Qed.

(** C4 (corrected). A JS value that encodes to [Invalid] at the top level
    (a symbol, a function, an external or a bigint, and nothing else) is
    not rejected by [send_message]: the message of type
    [CROSSLOCALE_MESSAGE_INVALID] is handed to the library's send entry
    point unchanged, and [send_message] returns normally when that entry
    point returns [CROSSLOCALE_OK], or throws the translation of the code
    it returns. *)
Theorem send_message_forwards_invalid
    (desc : crosslocale_result -> string)
    (id : crosslocale_result -> option string) (oor : double -> Z)
    (backend_send : crosslocale_message -> crosslocale_result) (v : js_value) :
  (from_js_value_impl oor v = MESSAGE_INVALID <->
     v = JsSymbol \/ v = JsFunction \/ v = JsExternal \/ v = JsBigInt) /\
  (from_js_value_impl oor v = MESSAGE_INVALID ->
     NodeBackend_send_message desc id oor backend_send [v]
     = match backend_send MESSAGE_INVALID with
       | CROSSLOCALE_OK => Returned JsUndefined
       | code => ThrewError (to_node_error desc id code)
       end).
Proof.
  split; [apply from_js_invalid_iff|].
  intros H; unfold NodeBackend_send_message, translate_ffi_result; rewrite H.
  destruct (backend_send MESSAGE_INVALID); reflexivity.
Qed.

Lemma send_message_forwards_invalid_witness :
  from_js_value_impl u64_saturating JsSymbol = MESSAGE_INVALID /\
  NodeBackend_send_message (fun _ => ""%string) (fun _ => None) u64_saturating
    (spec_backend_send_message ClosedLocally) [JsSymbol]
  = ThrewError (to_node_error (fun _ => ""%string) (fun _ => None)
                  CROSSLOCALE_ERR_BACKEND_DISCONNECTED).
Proof.
  split; [reflexivity|].
  exact (proj2 (send_message_forwards_invalid (fun _ => ""%string) (fun _ => None)
                  u64_saturating (spec_backend_send_message ClosedLocally) JsSymbol)
           eq_refl).
Defined.

(** C4 (as stated, refuted). Sending a symbol through a handle whose
    library send accepts messages (the [Open] state of the specification)
    reports no error: [send_message] returns normally. *)
Lemma send_symbol_reports_no_error :
  NodeBackend_send_message (fun _ => ""%string) (fun _ => None) u64_saturating
    (spec_backend_send_message Open) [JsSymbol] = Returned JsUndefined.
Proof. reflexivity. Qed.

(** ** Translation of result codes into JS errors *)

(** The methods other than the constructor translate every non-OK code
    with [to_node_error]. *)
Lemma methods_translate_errors
    (desc : crosslocale_result -> string)
    (id : crosslocale_result -> option string) (oor : double -> Z)
    (c : crosslocale_result) :
  c <> CROSSLOCALE_OK ->
  (forall v, NodeBackend_send_message desc id oor (fun _ => c) [v]
             = ThrewError (to_node_error desc id c)) /\
  (forall m, NodeBackend_recv_message_sync desc id 0 (c, m)
             = ThrewError (to_node_error desc id c)) /\
  NodeBackend_close desc id 0 c = ThrewError (to_node_error desc id c) /\
  (forall b, NodeBackend_is_closed desc id 0 (c, b)
             = ThrewError (to_node_error desc id c)) /\
  to_node_error desc id c
  = {| error_message := desc c; error_errno := crosslocale_result_value c;
       error_code := id c |}.
Proof.
  intros Hc; destruct c; [contradiction | | |];
    repeat split; intros; reflexivity.
Qed.

(** C8 (code defect). The constructor of [Backend] lets the
    [FfiBackendException] of a failing [crosslocale_backend_new] escape
    untranslated (and so does [init_logging]): for
    [CROSSLOCALE_ERR_SPAWN_THREAD_FAILED] no JS error with its description,
    [errno] and [code] is produced. *)
Theorem constructor_error_not_translated
    (desc : crosslocale_result -> string)
    (id : crosslocale_result -> option string) :
  NodeBackend_new 0 CROSSLOCALE_ERR_SPAWN_THREAD_FAILED
    = EscapedFfiException CROSSLOCALE_ERR_SPAWN_THREAD_FAILED /\
  NodeBackend_new 0 CROSSLOCALE_ERR_SPAWN_THREAD_FAILED
    <> ThrewError (to_node_error desc id CROSSLOCALE_ERR_SPAWN_THREAD_FAILED) /\
  (forall c, c <> CROSSLOCALE_OK ->
     init_logging c = EscapedFfiException c /\
     init_logging c <> ThrewError (to_node_error desc id c)).
Proof.
  split; [reflexivity|split; [discriminate|]].
  intros c Hc; destruct c; [contradiction| | |]; split;
    solve [reflexivity | discriminate].
Qed.

(** ** Asynchronous receive *)

Section AsyncRecvProofs.

Variable desc : crosslocale_result -> string.
Variable id : crosslocale_result -> option string.

(** Every finished worker holds the state left by [Execute] of some
    receive result. *)
Lemma completed_from_execute (s : event_loop) :
  reachable desc id s ->
  forall cb w, In (cb, w) (completed s) -> exists recv, w = Execute recv.
Proof.
  induction 1 as [|s t e s' Hr IH Hstep]; simpl; [tauto|].
  intros cb w Hin.
  inversion Hstep; subst; simpl in *.
  - destruct args as [|[cb'|v] [|a rest]]; simpl in Hin; eauto.
  - apply in_app_or in Hin as [Hin | [Heq | []]]; eauto.
    injection Heq as <- <-; eauto.
  - apply (IH cb w); match goal with H : completed s = _ |- _ => rewrite H end.
    apply in_app_or in Hin as [Hin | Hin]; apply in_or_app; simpl; tauto.
Qed.

Lemma GetResult_Execute (res : crosslocale_result) (msg : crosslocale_message)
    (args : list callback_arg) :
  GetResult desc id (Execute (res, msg)) = Some args ->
  (res = CROSSLOCALE_OK ->
     exists v, to_js_value msg = Some v /\ args = [ArgValue JsNull; ArgValue v]) /\
  (res <> CROSSLOCALE_OK -> args = [ArgError (to_node_error desc id res)]).
Proof.
  unfold GetResult, Execute; destruct res; simpl.
  - destruct (to_js_value msg) as [v|] eqn:E; intros H; [|discriminate].
    injection H as <-; split; [eauto | intros []; reflexivity].
  - intros H; injection H as <-; split; [discriminate | reflexivity].
  - intros H; injection H as <-; split; [discriminate | reflexivity].
  - intros H; injection H as <-; split; [discriminate | reflexivity].
Qed.

End AsyncRecvProofs.

(** C7. In every step from a reachable state: the blocking
    [crosslocale_backend_recv_message] runs only on a pool thread; a JS call
    of [recv_message] is a main-thread step that runs no receive, queues the
    worker (or throws the [TypeError] of a bad call) and returns; and every
    call of a callback, on the main thread, passes [(null, v)] with [v] the
    decoded message when the receive succeeded, or the single translated
    error when it failed. *)
Theorem recv_message_runs_off_thread
    (desc : crosslocale_result -> string)
    (id : crosslocale_result -> option string)
    (s : event_loop) (t : thread) (e : loop_event) (s' : event_loop) :
  reachable desc id s -> loop_step desc id s t e s' ->
  (forall recv, e = EvBlockingRecv recv -> t = PoolThread) /\
  (forall args out, e = EvRecvMessageCall args out ->
     t = MainThread /\ completed s' = completed s /\
     callback_calls s' = callback_calls s /\
     ((exists cb, args = [RecvArgFunction cb] /\ out = Returned JsUndefined /\
                  work_queue s' = work_queue s ++ [cb]) \/
      (out = ThrewTypeError "recv_message(callback: Function): void" /\ s' = s))) /\
  (forall cb args, e = EvCallback cb args ->
     t = MainThread /\
     exists res msg,
       (res = CROSSLOCALE_OK ->
          exists v, to_js_value msg = Some v /\ args = [ArgValue JsNull; ArgValue v]) /\
       (res <> CROSSLOCALE_OK -> args = [ArgError (to_node_error desc id res)])).
Proof.
  intros Hr Hstep.
  inversion Hstep as [s0 args0 | s0 q1 cb0 q2 recv0 Hq | s0 c1 cb0 w c2 args0 Hc Hget];
    subst; split; [| split | | split | | split];
    intros; try discriminate.
  - match goal with H : EvRecvMessageCall _ _ = EvRecvMessageCall _ _ |- _ =>
      injection H as <- <- end.
    split; [reflexivity|].
    destruct args0 as [|[cb|v] [|a rest]]; simpl;
      repeat split; try solve [right; split; reflexivity]; left; eauto.
  - reflexivity.
  - match goal with H : EvCallback _ _ = EvCallback _ _ |- _ =>
      injection H as <- <- end.
    split; [reflexivity|].
    destruct (completed_from_execute desc id s Hr cb0 w)
      as [[res msg] ->]; [rewrite Hc; apply in_or_app; simpl; tauto|].
    exists res, msg; exact (GetResult_Execute desc id res msg _ Hget).
Qed.

Lemma recv_message_runs_off_thread_witness :
  let d := fun _ : crosslocale_result => ""%string in
  let i := fun _ : crosslocale_result => @None string in
  let s1 := snd (recv_message_call [RecvArgFunction 7] empty_event_loop) in
  reachable d i s1 /\
  loop_step d i s1 PoolThread
    (EvBlockingRecv (CROSSLOCALE_OK, MESSAGE_BOOL true))
    {| work_queue := []; completed := [(7%nat, Execute (CROSSLOCALE_OK, MESSAGE_BOOL true))];
       callback_calls := [] |} /\
  PoolThread = PoolThread.
Proof.
  intros d i s1.
  assert (Hr : reachable d i s1).
  { apply (reachable_step d i empty_event_loop MainThread
             (EvRecvMessageCall [RecvArgFunction 7] (Returned JsUndefined)) s1).
    - apply reachable_init.
    - apply (StepRecvMessage d i empty_event_loop [RecvArgFunction 7]). }
  assert (Hs : loop_step d i s1 PoolThread
                 (EvBlockingRecv (CROSSLOCALE_OK, MESSAGE_BOOL true))
                 {| work_queue := [];
                    completed := [(7%nat, Execute (CROSSLOCALE_OK, MESSAGE_BOOL true))];
                    callback_calls := [] |}).
  { apply (StepExecute d i s1 [] 7 [] (CROSSLOCALE_OK, MESSAGE_BOOL true)).
    reflexivity. }
  split; [exact Hr|split; [exact Hs|]].
  exact (proj1 (recv_message_runs_off_thread d i s1 PoolThread _ _ Hr Hs) _ eq_refl).
Defined.

(** ** Lemmas on the binary64 conversions *)

Lemma digits2_pos_size (p : positive) : digits2_pos p = Pos.size p.
Proof. induction p as [p IH|p IH|]; simpl; congruence. Qed.

Lemma Zdigits2_bound (p : positive) (k : Z) :
  0 <= k -> Zpos p < 2 ^ k -> Zpos (digits2_pos p) <= k.
Proof.
  intros Hk Hp; rewrite digits2_pos_size.
  pose proof (Pos.size_le p) as Hle.
  apply Pos2Z.pos_le_pos in Hle; rewrite Pos2Z.inj_pow in Hle.
  destruct (Z.le_gt_cases (Zpos (Pos.size p)) k) as [H|H]; [exact H|].
  exfalso.
  assert (2 ^ (k + 1) <= 2 ^ Zpos (Pos.size p)) by (apply Z.pow_le_mono_r; lia).
  rewrite Z.pow_add_r in H0 by lia.
  change (Zpos p~0) with (2 * Zpos p) in Hle. lia.
Qed.

Lemma digits2_pos_iter_xO (p k : positive) :
  digits2_pos (Pos.iter xO p k) = (digits2_pos p + k)%positive.
Proof.
  induction k as [|k IH] using Pos.peano_ind.
  - simpl; lia.
  - rewrite Pos.iter_succ; simpl; rewrite IH; lia.
Qed.

Lemma iter_xO_mul (p k : positive) :
  Zpos (Pos.iter xO p k) = Zpos p * 2 ^ Zpos k.
Proof.
  induction k as [|k IH] using Pos.peano_ind.
  - simpl; lia.
  - rewrite Pos.iter_succ, Pos2Z.inj_succ, Z.pow_succ_r by lia.
    change (Zpos (Pos.iter xO p k)~0) with (2 * Zpos (Pos.iter xO p k)).
    rewrite IH; lia.
Qed.

Lemma iter_pos_invariant (P : shr_record -> Prop) :
  (forall r, P r -> P (shr_1 r)) ->
  forall n r, P r -> P (iter_pos shr_1 n r).
Proof. intros H n; induction n; intros r Hr; simpl; auto. Qed.

Lemma shr_fexp_exponent (m e : Z) (l : location) :
  snd (shr_fexp 53 1024 m e l) = Z.max e (fexp 53 1024 (Zdigits2 m + e)).
Proof.
  unfold shr_fexp, shr.
  destruct (fexp 53 1024 (Zdigits2 m + e) - e) eqn:E; simpl; lia.
Qed.

Lemma shr_fexp_mantissa (m e B : Z) (l : location) :
  0 <= m <= B -> 0 <= shr_m (fst (shr_fexp 53 1024 m e l)) <= B.
Proof.
  intros Hm; unfold shr_fexp, shr.
  assert (Hl : shr_m (shr_record_of_loc m l) = m) by (destruct l as [|[]]; reflexivity).
  destruct (fexp 53 1024 (Zdigits2 m + e) - e); simpl; try (rewrite Hl; lia).
  apply (iter_pos_invariant (fun r => 0 <= shr_m r <= B)); [|rewrite Hl; lia].
  intros [[|[q|q|]|q] r s] Hr; simpl in *; lia.
Qed.

Lemma round_nearest_even_bound (m B : Z) (l : location) :
  0 <= m <= B -> 0 <= round_nearest_even m l <= B + 1.
Proof. intros Hm; destruct l as [|[]]; simpl; try destruct (Z.even m); lia. Qed.

(** The conversion of an integer of at most 53 bits is exact: the
    mantissa is shifted left to 53 bits. *)
Lemma binary_round_exact (sx : bool) (p : positive) :
  Zpos (digits2_pos p) <= 53 ->
  exists mz, binary_round 53 1024 sx p 0 = S754_finite sx mz (Zpos (digits2_pos p) - 53)
    /\ Zpos mz = Zpos p * 2 ^ (53 - Zpos (digits2_pos p)).
Proof.
  intros Hd. set (d := Zpos (digits2_pos p)) in *.
  unfold binary_round.
  assert (Hf : fexp 53 1024 (Zpos (digits2_pos p) + 0) = d - 53)
    by (unfold fexp, emin; subst d; lia).
  rewrite Hf; clear Hf.
  assert (Hal : exists mz, shl_align p 0 (d - 53) = (mz, d - 53)
             /\ Zpos mz = Zpos p * 2 ^ (53 - d) /\ Zpos (digits2_pos mz) = 53).
  { unfold shl_align.
    destruct (d - 53 - 0) eqn:E.
    - exists p; split; [f_equal; lia|split].
      + replace (53 - d) with 0 by lia; lia.
      + subst d; lia.
    - lia.
    - exists (Pos.iter xO p p0); split; [reflexivity|split].
      + rewrite iter_xO_mul; f_equal; f_equal; lia.
      + rewrite digits2_pos_iter_xO, Pos2Z.inj_add; subst d; lia. }
  destruct Hal as [mz [Hal [Hmz Hdz]]]; rewrite Hal.
  exists mz; split; [|exact Hmz].
  assert (Hsh : forall l, shr_fexp 53 1024 (Zpos mz) (d - 53) l
                           = (shr_record_of_loc (Zpos mz) l, d - 53)).
  { intros l; unfold shr_fexp; cbn [Zdigits2]; rewrite Hdz.
    replace (fexp 53 1024 (53 + (d - 53)) - (d - 53)) with 0
      by (unfold fexp, emin; subst d; lia).
    reflexivity. }
  unfold binary_round_aux; rewrite Hsh; cbn [shr_record_of_loc shr_m loc_of_shr_record round_nearest_even].
  rewrite Hsh; cbn [shr_record_of_loc shr_m].
  replace (d - 53 <=? 1024 - 53) with true by (symmetry; apply Z.leb_le; lia).
  reflexivity.
Qed.

(** The conversion of an integer of 54 to 64 bits rounds to a finite
    double whose exponent is positive. *)
Lemma binary_round_wide (sx : bool) (p : positive) :
  53 < Zpos (digits2_pos p) -> Zpos p < 2 ^ 64 ->
  match binary_round 53 1024 sx p 0 with
  | S754_zero _ => True
  | S754_finite _ _ e => 0 < e
  | _ => False
  end.
Proof.
  intros Hd Hp. set (d := Zpos (digits2_pos p)) in *.
  assert (Hd64 : d <= 64) by (apply Zdigits2_bound; lia).
  unfold binary_round.
  assert (Hal : shl_align p 0 (fexp 53 1024 (Zpos (digits2_pos p) + 0)) = (p, 0)).
  { unfold shl_align.
    replace (fexp 53 1024 (Zpos (digits2_pos p) + 0) - 0) with (Zpos (Z.to_pos (d - 53)))
      by (unfold fexp, emin; subst d; lia).
    reflexivity. }
  rewrite Hal; unfold binary_round_aux.
  pose proof (shr_fexp_exponent (Zpos p) 0 loc_Exact) as He1.
  pose proof (shr_fexp_mantissa (Zpos p) 0 (Zpos p) loc_Exact) as Hm1.
  destruct (shr_fexp 53 1024 (Zpos p) 0 loc_Exact) as [mrs1 e1].
  cbn [fst snd Zdigits2] in He1, Hm1.
  specialize (Hm1 ltac:(lia)).
  assert (He1' : e1 = d - 53) by (rewrite He1; unfold fexp, emin; subst d; lia).
  set (r := round_nearest_even (shr_m mrs1) (loc_of_shr_record mrs1)).
  assert (Hr : 0 <= r <= Zpos p + 1) by (apply round_nearest_even_bound; lia).
  pose proof (shr_fexp_exponent r e1 loc_Exact) as He2.
  pose proof (shr_fexp_mantissa r e1 (Zpos p + 1) loc_Exact Hr) as Hm2.
  destruct (shr_fexp 53 1024 r e1 loc_Exact) as [mrs2 e2].
  cbn [fst snd] in He2, Hm2.
  assert (Hdr : Zdigits2 r <= 65).
  { destruct r as [|q|q]; simpl; try lia.
    apply Zdigits2_bound; lia. }
  assert (He2' : 0 < e2 <= 971) by (rewrite He2; unfold fexp, emin; lia).
  destruct (shr_m mrs2) as [|m|m]; [exact I| |lia].
  replace (e2 <=? 1024 - 53) with true by (symmetry; apply Z.leb_le; lia).
  lia.
Qed.

Lemma binary_round_integral (sx : bool) (p : positive) :
  Zpos p < 2 ^ 64 ->
  match binary_round 53 1024 sx p 0 with
  | S754_zero _ => True
  | S754_finite s m e => double_has_fraction (S754_finite s m e) = false
  | _ => False
  end.
Proof.
  intros Hp.
  destruct (Z.le_gt_cases (Zpos (digits2_pos p)) 53) as [Hd|Hd].
  - destruct (binary_round_exact sx p Hd) as [mz [Hr Hmz]]; rewrite Hr.
    unfold double_has_fraction.
    replace (- (Zpos (digits2_pos p) - 53)) with (53 - Zpos (digits2_pos p)) by lia.
    rewrite Hmz, Z_mod_mult; simpl; apply andb_false_r.
  - pose proof (binary_round_wide sx p Hd Hp) as Hw.
    destruct (binary_round 53 1024 sx p 0) as [| | |s m e]; try contradiction.
    + exact I.
    + unfold double_has_fraction.
      replace (e <? 0) with false by (symmetry; apply Z.ltb_ge; lia).
      reflexivity.
Qed.

(** A 64-bit integer converts to zero or to a finite double without
    fractional part, never to an infinity or NaN. *)
Lemma cast_double_of_i64_integral (z : Z) :
  Z.abs z < 2 ^ 64 ->
  match cast_double_of_i64 z with
  | S754_zero _ => True
  | S754_finite s m e => double_has_fraction (S754_finite s m e) = false
  | _ => False
  end.
Proof.
  intros Hz; unfold cast_double_of_i64, binary_normalize.
  destruct z as [|p|p]; [exact I| |]; apply binary_round_integral; simpl in Hz; lia.
Qed.

Lemma SFeqb_finite_refl (s : bool) (m : positive) (e : Z) :
  double_eq (S754_finite s m e) (S754_finite s m e) = true.
Proof.
  unfold double_eq, SFeqb; destruct s; simpl;
    rewrite Z.compare_refl, Pos.compare_cont_refl; reflexivity.
Qed.

Lemma SFeqb_finite_eq (x : double) (s : bool) (m : positive) (e : Z) :
  double_eq x (S754_finite s m e) = true -> x = S754_finite s m e.
Proof.
  unfold double_eq, SFeqb; intros H.
  destruct x as [sx|sx| |sx mx ex]; simpl in H;
    try destruct sx; destruct s; try discriminate;
    destruct (Z.compare_spec ex e); try discriminate; subst;
    destruct (Pos.compare_cont Eq mx m) eqn:E; simpl in H; try discriminate;
    change (Pos.compare mx m = Eq) in E; apply Pos.compare_eq in E; subst; reflexivity.
Qed.

Lemma cast_i64_of_u64_range (oor : double -> Z) (d : double) :
  - 2 ^ 63 <= cast_i64_of_u64 (cast_u64_of_double oor d) < 2 ^ 63.
Proof.
  assert (H : 0 <= cast_u64_of_double oor d < 2 ^ 64).
  { unfold cast_u64_of_double.
    destruct (double_trunc d) as [t|].
    - destruct ((0 <=? t) && (t <? 2 ^ 64)) eqn:E.
      + apply andb_true_iff in E; destruct E as [E1 E2];
          apply Z.leb_le in E1; apply Z.ltb_lt in E2; lia.
      + apply Z.mod_pos_bound; lia.
    - apply Z.mod_pos_bound; lia. }
  unfold cast_i64_of_u64; destruct (Z.ltb_spec (cast_u64_of_double oor d) (2 ^ 63)); lia.
Qed.

(** A NaN, an infinity or a double with a fractional part is never equal
    to a converted 64-bit integer: it stays a [Float64]. *)
Lemma number_message_float (oor : double -> Z) (d : double) :
  match d with
  | S754_nan | S754_infinity _ => true
  | _ => double_has_fraction d
  end = true ->
  number_message oor d = MESSAGE_F64 d.
Proof.
  intros Hd; unfold number_message; cbv zeta.
  pose proof (cast_i64_of_u64_range oor d) as Hr.
  set (n := cast_i64_of_u64 (cast_u64_of_double oor d)) in *.
  pose proof (cast_double_of_i64_integral n ltac:(lia)) as Hc.
  set (c := cast_double_of_i64 n) in *.
  destruct (double_eq c d) eqn:E; [|reflexivity].
  exfalso.
  destruct d as [sd|sd| |sd md ed]; try discriminate.
  - unfold double_eq, SFeqb in E.
    destruct c; try contradiction; destruct sd; simpl in E; discriminate.
  - unfold double_eq, SFeqb in E.
    destruct c; simpl in E; discriminate.
  - apply SFeqb_finite_eq in E; rewrite E in Hc; congruence.
Qed.

(** An integer in [0, 2^53] converts to a double that is encoded back to
    the same [Int64], whatever the target does out of range. *)
Lemma number_message_int (oor : double -> Z) (z : Z) :
  0 <= z <= 2 ^ 53 -> number_message oor (cast_double_of_i64 z) = MESSAGE_I64 z.
Proof.
  intros Hz.
  destruct (Z.eq_dec z (2 ^ 53)) as [->|Hne]; [vm_compute; reflexivity|].
  destruct z as [|p|p]; [reflexivity| |lia].
  assert (Hd : Zpos (digits2_pos p) <= 53) by (apply Zdigits2_bound; lia).
  destruct (binary_round_exact false p Hd) as [mz [Hr Hmz]].
  assert (Hc : cast_double_of_i64 (Zpos p)
               = S754_finite false mz (Zpos (digits2_pos p) - 53)) by exact Hr.
  assert (Ht : double_trunc (S754_finite false mz (Zpos (digits2_pos p) - 53)) = Some (Zpos p)).
  { unfold double_trunc; f_equal.
    replace (Zpos (digits2_pos p) - 53) with (- (53 - Zpos (digits2_pos p))) by lia.
    rewrite Z.shiftl_opp_r, Z.shiftr_div_pow2 by lia.
    rewrite Hmz, Z.div_mul; [reflexivity|].
    apply Z.pow_nonzero; lia. }
  assert (Hn : cast_i64_of_u64 (cast_u64_of_double oor
                 (S754_finite false mz (Zpos (digits2_pos p) - 53))) = Zpos p).
  { unfold cast_u64_of_double; rewrite Ht.
    replace ((0 <=? Zpos p) && (Zpos p <? 2 ^ 64)) with true
      by (symmetry; apply andb_true_iff; split; [apply Z.leb_le | apply Z.ltb_lt]; lia).
    unfold cast_i64_of_u64.
    replace (Zpos p <? 2 ^ 63) with true by (symmetry; apply Z.ltb_lt; lia).
    reflexivity. }
  unfold number_message; rewrite Hc; cbv zeta; rewrite Hn, Hc, SFeqb_finite_refl.
  reflexivity.
Qed.

(** ** The round trip through JS *)

(** Induction on messages through the cells of lists and dicts. *)
Lemma crosslocale_message_ind_cells (P : crosslocale_message -> Prop)
    (Hnil : P MESSAGE_NIL)
    (Hbool : forall b, P (MESSAGE_BOOL b))
    (Hi64 : forall x, P (MESSAGE_I64 x))
    (Hf64 : forall d, P (MESSAGE_F64 d))
    (Hstr : forall s, P (MESSAGE_STR s))
    (Hlist : forall ptr, cells_all P ptr -> P (MESSAGE_LIST ptr))
    (Hdict : forall ks vs, cells_all P vs -> P (MESSAGE_DICT ks vs))
    (Hinvalid : P MESSAGE_INVALID) :
  forall m, P m.
Proof.
  fix IH 1; intros [|b|x|d|s|ptr|ks vs|];
    [exact Hnil | apply Hbool | apply Hi64 | apply Hf64 | apply Hstr | | | exact Hinvalid].
  - apply Hlist; revert ptr; fix go 1; intros [|[v|] rest]; simpl.
    + exact I.
    + split; [apply IH | apply go].
    + apply go.
  - apply Hdict; revert vs; fix go 1; intros [|[v|] rest]; simpl.
    + exact I.
    + split; [apply IH | apply go].
    + apply go.
Qed.

Lemma round_trippable_not_invalid (lo : Z) (m : crosslocale_message) :
  round_trippable lo m = true -> is_invalid m = false.
Proof. destruct m; simpl; congruence. Qed.

Lemma string_append_assoc (a b c : string) :
  String.append (String.append a b) c = String.append a (String.append b c).
Proof. induction a as [|x a IH]; simpl; [reflexivity | rewrite IH; reflexivity]. Qed.

Lemma utf8_classify_multi (b : Z) (n : nat) (lo hi : Z) :
  utf8_classify b = LeadMulti n lo hi -> n <> O.
Proof.
  unfold utf8_classify.
  destruct (b <=? 127); [discriminate|].
  destruct ((194 <=? b) && (b <=? 223)); [intros H; injection H; intros; subst; discriminate|].
  destruct ((224 <=? b) && (b <=? 239)); [intros H; injection H; intros; subst; discriminate|].
  destruct ((240 <=? b) && (b <=? 244)); [intros H; injection H; intros; subst; discriminate|].
  discriminate.
Qed.

Lemma utf8_sanitize_from_valid (s : string) :
  forall st, (bytes_needed st = O -> pending_bytes st = EmptyString) ->
  utf8_valid_from st s = true ->
  utf8_sanitize_from st s = String.append (pending_bytes st) s.
Proof.
  induction s as [|c rest IH]; intros st Hinv H.
  - simpl in H |- *; apply Nat.eqb_eq in H; rewrite H, (Hinv H); reflexivity.
  - cbn [utf8_valid_from] in H; apply andb_true_iff in H as [Hc Hrest].
    cbn [utf8_sanitize_from]; unfold utf8_step in *.
    destruct (bytes_needed st) as [|n] eqn:En.
    + rewrite (Hinv eq_refl); unfold utf8_fresh in *.
      destruct (utf8_classify (Z.of_nat (nat_of_ascii c))) as [|n lo hi|] eqn:Ecl;
        [| |discriminate]; simpl in Hrest |- *.
      * rewrite (IH utf8_idle (fun _ => eq_refl) Hrest); reflexivity.
      * rewrite IH; [reflexivity | | exact Hrest].
        simpl; intros Hn; exfalso; exact (utf8_classify_multi _ _ _ _ Ecl Hn).
    + rewrite Hc in Hrest |- *; destruct n as [|n].
      * simpl in Hrest |- *; rewrite (IH utf8_idle (fun _ => eq_refl) Hrest).
        rewrite string_append_assoc; reflexivity.
      * simpl in Hrest |- *.
        rewrite IH; [| simpl; discriminate | exact Hrest].
        cbn [pending_bytes]; rewrite string_append_assoc; reflexivity.
Qed.

(** Well-formed UTF-8 goes through [Napi::String::New] unchanged. *)
Lemma utf8_sanitize_valid (s : string) :
  utf8_valid s = true -> utf8_sanitize s = s.
Proof.
  intros H; exact (utf8_sanitize_from_valid s utf8_idle (fun _ => eq_refl) H).
Qed.

Lemma list_round_trip (oor : double -> Z) (lo : Z) (ptr : list (option crosslocale_message)) :
  cells_all (round_trips oor lo) ptr ->
  round_trippable lo (MESSAGE_LIST ptr) = true ->
  exists jss, list_to_js to_js_value_impl ptr = Some jss
    /\ map (encode_cell (from_js_value_impl oor)) jss = ptr.
Proof.
  induction ptr as [|[v|] rest IHp]; intros Hall Hrt.
  - exists []; split; reflexivity.
  - destruct Hall as [Hv Hall].
    cbn [round_trippable] in Hrt; apply andb_true_iff in Hrt as [Hrv Hrest].
    destruct (IHp Hall Hrest) as [jss [Hjss Hmap]].
    specialize (Hv Hrv).
    destruct (to_js_value_impl v) as [js|] eqn:Ejs; [|discriminate].
    injection Hv as Hv.
    exists (js :: jss); simpl; rewrite Ejs, Hjss; split; [reflexivity|].
    unfold encode_cell at 1; rewrite Hv, (round_trippable_not_invalid lo v Hrv), Hmap.
    reflexivity.
  - discriminate.
Qed.

Lemma js_object_set_plain (obj : list (string * js_value)) (k : string) (v : js_value) :
  plain_key k = true -> ~ In k (map fst obj) ->
  js_object_set obj k v = obj ++ [(k, v)].
Proof.
  intros Hk Hnot; unfold plain_key in Hk; unfold js_object_set.
  apply andb_true_iff in Hk as [Hp Hidx].
  replace (existsb (fun '(k', _) => String.eqb k' k) obj) with false.
  - destruct (array_index k); [discriminate | reflexivity].
  - symmetry; apply Bool.not_true_iff_false; intros Hex.
    apply existsb_exists in Hex as [[k' v'] [Hin Heq]].
    apply String.eqb_eq in Heq; subst k'.
    apply Hnot, (in_map fst _ _ Hin).
Qed.

(** A plain key never reaches the [__proto__] setter. *)
Lemma object_set_plain (o : js_object_state) (k : string) (v : js_value) (a : bool) :
  plain_key k = true -> ~ In k (map fst (own_props o)) ->
  object_set o k v a =
  {| own_props := own_props o ++ [(k, v)]; inherited_props := inherited_props o;
     proto_accessor := proto_accessor o |}.
Proof.
  intros Hk Hnot; unfold object_set.
  assert (Hp : String.eqb k "__proto__" = false).
  { unfold plain_key in Hk; apply andb_true_iff in Hk as [Hp _].
    apply negb_true_iff in Hp; exact Hp. }
  rewrite Hp, orb_true_r, orb_true_l, (js_object_set_plain _ k v Hk Hnot); reflexivity.
Qed.

Lemma dict_round_trip (oor : double -> Z) (lo : Z) (vs : list (option crosslocale_message)) :
  forall (ks : list (option string)) (o : js_object_state),
  cells_all (round_trips oor lo) vs ->
  round_trippable lo (MESSAGE_DICT ks vs) = true ->
  (forall k, In k (key_list ks) -> ~ In k (map fst (own_props o))) ->
  exists props,
    dict_to_js to_js_value_impl object_prototype_on_chain o ks vs =
      Some {| own_props := own_props o ++ props; inherited_props := inherited_props o;
              proto_accessor := proto_accessor o |}
    /\ map (key_cell (from_js_value_impl oor)) props = ks
    /\ map (fun p => encode_cell (from_js_value_impl oor) (snd p)) props = vs.
Proof.
  induction vs as [|[v|] vs' IHv]; intros ks o Hall Hrt Hfresh.
  - destruct ks as [|c ks']; [|destruct c; discriminate].
    exists []; rewrite app_nil_r; destruct o; repeat split.
  - destruct ks as [|[k|] ks']; try discriminate.
    destruct Hall as [Hv Hall].
    cbn [round_trippable key_list flat_map app] in Hrt.
    apply andb_true_iff in Hrt as [Hrt Hdist].
    apply andb_true_iff in Hrt as [Hrt Hrest].
    apply andb_true_iff in Hrt as [Hrt Hrv].
    apply andb_true_iff in Hrt as [Hk Hu].
    apply andb_true_iff in Hdist as [Hnew Hdist].
    specialize (Hv Hrv).
    destruct (to_js_value_impl v) as [js|] eqn:Ejs; [|discriminate].
    injection Hv as Hv.
    set (o1 := {| own_props := own_props o ++ [(k, js)];
                  inherited_props := inherited_props o;
                  proto_accessor := proto_accessor o |}).
    assert (Hset : object_set o (utf8_sanitize k) js (object_prototype_on_chain v) = o1).
    { rewrite (utf8_sanitize_valid k Hu).
      apply object_set_plain; [exact Hk|].
      apply Hfresh; simpl; left; reflexivity. }
    destruct (IHv ks' o1 Hall
                (proj2 (andb_true_iff _ _) (conj Hrest Hdist)))
      as [props [Hd [Hks Hvs]]].
    { intros k' Hin Hobj; simpl in Hobj.
      rewrite map_app, in_app_iff in Hobj; destruct Hobj as [Hobj|Hobj].
      - apply (Hfresh k'); [simpl; right; exact Hin | exact Hobj].
      - simpl in Hobj; destruct Hobj as [Heq|[]]; subst k'.
        apply negb_true_iff, Bool.not_true_iff_false in Hnew; apply Hnew.
        apply existsb_exists; exists k; split; [exact Hin | apply String.eqb_refl]. }
    exists ((k, js) :: props); simpl.
    rewrite Ejs, Hset, Hd; simpl; rewrite <- app_assoc; split; [reflexivity|].
    unfold key_cell at 1, encode_cell at 1; simpl.
    rewrite Hv, (round_trippable_not_invalid lo v Hrv), Hks, Hvs.
    split; reflexivity.
  - destruct ks as [|[k|] ks']; discriminate.
Qed.

Lemma double_trunc_cast_exact (z : Z) :
  - 2 ^ 53 <= z <= 2 ^ 53 ->
  double_trunc (cast_double_of_i64 z) = Some z /\
  double_eq (cast_double_of_i64 z) (cast_double_of_i64 z) = true.
Proof.
  intros Hz.
  destruct (Z.eq_dec z (2 ^ 53)) as [->|Hne1]; [split; vm_compute; reflexivity|].
  destruct (Z.eq_dec z (- 2 ^ 53)) as [->|Hne2]; [split; vm_compute; reflexivity|].
  destruct z as [|p|p]; [split; reflexivity| |].
  all: assert (Hd : Zpos (digits2_pos p) <= 53) by (apply Zdigits2_bound; lia).
  - destruct (binary_round_exact false p Hd) as [mz [Hr Hmz]].
    change (cast_double_of_i64 (Zpos p)) with (binary_round 53 1024 false p 0).
    rewrite Hr; split; [|apply SFeqb_finite_refl].
    unfold double_trunc; f_equal.
    replace (Zpos (digits2_pos p) - 53) with (- (53 - Zpos (digits2_pos p))) by lia.
    rewrite Z.shiftl_opp_r, Z.shiftr_div_pow2 by lia.
    rewrite Hmz, Z.div_mul; [reflexivity|].
    apply Z.pow_nonzero; lia.
  - destruct (binary_round_exact true p Hd) as [mz [Hr Hmz]].
    change (cast_double_of_i64 (Zneg p)) with (binary_round 53 1024 true p 0).
    rewrite Hr; split; [|apply SFeqb_finite_refl].
    unfold double_trunc; f_equal.
    replace (Zpos (digits2_pos p) - 53) with (- (53 - Zpos (digits2_pos p))) by lia.
    rewrite Z.shiftl_opp_r, Z.shiftr_div_pow2 by lia.
    rewrite Hmz, Z.div_mul; [reflexivity|].
    apply Z.pow_nonzero; lia.
Qed.

(** With the intended signed conversion, a negative integer down to
    [-2^53] converts to a double that is encoded back to the same
    [Int64]. *)
Lemma number_message_neg_int (oor : double -> Z) (z : Z) :
  signed_out_of_range oor -> - 2 ^ 53 <= z < 0 ->
  number_message oor (cast_double_of_i64 z) = MESSAGE_I64 z.
Proof.
  intros Hoor Hz.
  destruct (double_trunc_cast_exact z ltac:(lia)) as [Ht Heq].
  assert (Hn : cast_i64_of_u64 (cast_u64_of_double oor (cast_double_of_i64 z)) = z).
  { unfold cast_u64_of_double; rewrite Ht.
    replace ((0 <=? z) && (z <? 2 ^ 64)) with false
      by (symmetry; apply andb_false_iff; left; apply Z.leb_gt; lia).
    rewrite (Hoor _ z Ht ltac:(lia)).
    replace (z mod 2 ^ 64) with (z + 2 ^ 64)
      by (apply Z.mod_unique with (-1); lia).
    unfold cast_i64_of_u64.
    replace (z + 2 ^ 64 <? 2 ^ 63) with false by (symmetry; apply Z.ltb_ge; lia).
    lia. }
  unfold number_message; cbv zeta; rewrite Hn, Heq; reflexivity.
Qed.

(** x86-64 converts out of range as the encoder intends. *)
Lemma u64_x86_64_signed : signed_out_of_range u64_x86_64.
Proof.
  intros d t Ht Hr; unfold u64_x86_64; rewrite Ht.
  replace ((- 2 ^ 63 <=? t) && (t <? 2 ^ 63)) with true
    by (symmetry; apply andb_true_iff; split; [apply Z.leb_le | apply Z.ltb_lt]; lia).
  apply Z.mod_mod; lia.
Qed.

Lemma round_trip_from (oor : double -> Z) (lo : Z) (v : crosslocale_message) :
  (forall x, lo <= x <= 2 ^ 53 -> number_message oor (cast_double_of_i64 x) = MESSAGE_I64 x) ->
  round_trippable lo v = true ->
  option_map (from_js_value_impl oor) (to_js_value v) = Some v.
Proof.
  intros Hint; unfold to_js_value; revert v.
  apply (crosslocale_message_ind_cells (round_trips oor lo)); unfold round_trips.
  - reflexivity.
  - reflexivity.
  - intros x Hx; cbn [round_trippable] in Hx.
    apply andb_true_iff in Hx as [H0 H1]; apply Z.leb_le in H0; apply Z.leb_le in H1.
    cbn [to_js_value_impl option_map from_js_value_impl].
    rewrite Hint by lia; reflexivity.
  - intros d Hd; cbn [to_js_value_impl option_map from_js_value_impl].
    rewrite (number_message_float oor d Hd); reflexivity.
  - intros s Hs; cbn [round_trippable] in Hs.
    cbn [to_js_value_impl option_map from_js_value_impl].
    rewrite (utf8_sanitize_valid s Hs); reflexivity.
  - intros ptr Hall Hrt.
    destruct (list_round_trip oor lo ptr Hall Hrt) as [jss [Hj Hm]].
    cbn [to_js_value_impl]; rewrite Hj; cbn [option_map].
    rewrite from_js_array_cells, Hm; reflexivity.
  - intros ks vs Hall Hrt.
    destruct (dict_round_trip oor lo vs ks fresh_object Hall Hrt (fun k _ Hin => Hin))
      as [props [Hd [Hks Hvs]]].
    cbn [to_js_value_impl]; rewrite Hd; cbn [option_map].
    replace (object_view _) with props
      by (unfold object_view; simpl; rewrite app_nil_r; reflexivity).
    rewrite from_js_object_cells, Hks, Hvs; reflexivity.
  - discriminate.
Qed.

(** C2 (corrected). Decoding a tagged value to JS and encoding the result
    back gives the same value for every value in which no [Invalid] and
    no unwritten cell occurs, every [Str] and every [Dict] key is
    well-formed UTF-8, every [Float64] is NaN, infinite or has a
    fractional part, the keys of every [Dict] are pairwise distinct, are
    not array indices and are not ["__proto__"], and every [Int64] lies in
    [0, 2^53], on every target, or in [-2^53, 2^53] when the out-of-range
    conversion is the signed one the encoder intends. *)
Theorem round_trip_through_js (oor : double -> Z) (v : crosslocale_message) :
  round_trippable 0 v = true \/
  (round_trippable (- 2 ^ 53) v = true /\ signed_out_of_range oor) ->
  option_map (from_js_value_impl oor) (to_js_value v) = Some v.
Proof.
  intros [Hrt | [Hrt Hoor]].
  - apply (round_trip_from oor 0); [|exact Hrt].
    intros x Hx; apply number_message_int; lia.
  - apply (round_trip_from oor (- 2 ^ 53)); [|exact Hrt].
    intros x Hx; destruct (Z.ltb_spec x 0).
    + apply number_message_neg_int; [exact Hoor | lia].
    + apply number_message_int; lia.
Qed.

Lemma round_trip_through_js_witness :
  round_trippable 0
    (MESSAGE_DICT [Some "name"%string; Some "items"%string]
       [Some (MESSAGE_STR "x"); Some (MESSAGE_LIST
          [Some (MESSAGE_I64 3); Some (MESSAGE_F64 (S754_infinity false));
           Some (MESSAGE_BOOL true); Some MESSAGE_NIL])]) = true /\
  option_map (from_js_value_impl u64_saturating)
    (to_js_value
       (MESSAGE_DICT [Some "name"%string; Some "items"%string]
          [Some (MESSAGE_STR "x"); Some (MESSAGE_LIST
             [Some (MESSAGE_I64 3); Some (MESSAGE_F64 (S754_infinity false));
              Some (MESSAGE_BOOL true); Some MESSAGE_NIL])]))
  = Some (MESSAGE_DICT [Some "name"%string; Some "items"%string]
            [Some (MESSAGE_STR "x"); Some (MESSAGE_LIST
               [Some (MESSAGE_I64 3); Some (MESSAGE_F64 (S754_infinity false));
                Some (MESSAGE_BOOL true); Some MESSAGE_NIL])]) /\
  round_trippable (- 2 ^ 53)
    (MESSAGE_LIST [Some (MESSAGE_I64 (-7)); Some (MESSAGE_I64 (- 2 ^ 53))]) = true /\
  option_map (from_js_value_impl u64_x86_64)
    (to_js_value (MESSAGE_LIST [Some (MESSAGE_I64 (-7)); Some (MESSAGE_I64 (- 2 ^ 53))]))
  = Some (MESSAGE_LIST [Some (MESSAGE_I64 (-7)); Some (MESSAGE_I64 (- 2 ^ 53))]).
Proof.
  split; [reflexivity|]; split.
  - apply (round_trip_through_js u64_saturating); left; reflexivity.
  - split; [reflexivity|].
    apply (round_trip_through_js u64_x86_64); right; split;
      [reflexivity | exact u64_x86_64_signed].
Defined.

(** Values without a top-level [Invalid] that do not survive the round
    trip: [Float64(3.0)] comes back as [Int64(3)] on every target;
    [Int64(2^53 + 1)] comes back as [Int64(2^53)]; a [Dict] with the key
    ["a"] twice comes back with one key; a [Dict] with keys ["b"], ["1"]
    comes back with ["1"] first; a ["__proto__"] key with an [Int64]
    value is dropped; a ["__proto__"] key with a [Dict] value becomes the
    prototype, whose keys come back as keys of the [Dict]; the ill-formed
    UTF-8 byte 0xFF comes back as U+FFFD; a [List] holding [Invalid] is
    not decoded at all. *)
Lemma round_trip_counterexamples :
  option_map (from_js_value_impl u64_saturating)
    (to_js_value (MESSAGE_F64 (cast_double_of_i64 3))) = Some (MESSAGE_I64 3) /\
  option_map (from_js_value_impl u64_x86_64)
    (to_js_value (MESSAGE_F64 (cast_double_of_i64 3))) = Some (MESSAGE_I64 3) /\
  option_map (from_js_value_impl u64_saturating)
    (to_js_value (MESSAGE_I64 (2 ^ 53 + 1))) = Some (MESSAGE_I64 (2 ^ 53)) /\
  option_map (from_js_value_impl u64_saturating)
    (to_js_value (MESSAGE_DICT [Some "a"%string; Some "a"%string]
                   [Some (MESSAGE_I64 1); Some (MESSAGE_I64 2)]))
  = Some (MESSAGE_DICT [Some "a"%string] [Some (MESSAGE_I64 2)]) /\
  option_map (from_js_value_impl u64_saturating)
    (to_js_value (MESSAGE_DICT [Some "b"%string; Some "1"%string]
                   [Some (MESSAGE_I64 1); Some (MESSAGE_I64 2)]))
  = Some (MESSAGE_DICT [Some "1"%string; Some "b"%string]
                       [Some (MESSAGE_I64 2); Some (MESSAGE_I64 1)]) /\
  option_map (from_js_value_impl u64_saturating)
    (to_js_value (MESSAGE_DICT [Some "__proto__"%string] [Some (MESSAGE_I64 1)]))
  = Some (MESSAGE_DICT [] []) /\
  option_map (from_js_value_impl u64_saturating)
    (to_js_value (MESSAGE_DICT [Some "a"%string; Some "__proto__"%string]
                   [Some (MESSAGE_I64 2);
                    Some (MESSAGE_DICT [Some "x"%string] [Some (MESSAGE_I64 1)])]))
  = Some (MESSAGE_DICT [Some "a"%string; Some "x"%string]
                       [Some (MESSAGE_I64 2); Some (MESSAGE_I64 1)]) /\
  option_map (from_js_value_impl u64_saturating)
    (to_js_value (MESSAGE_STR (String (ascii_of_nat 255) EmptyString)))
  = Some (MESSAGE_STR replacement_character) /\
  option_map (from_js_value_impl u64_saturating)
    (to_js_value (MESSAGE_LIST [Some MESSAGE_INVALID])) = None.
Proof. repeat split; vm_compute; reflexivity. Qed.

(** C3 (code defect). The number classification of [from_js_value_impl]
    converts through [uint64_t], not [int64_t]. It behaves as specified on
    the examples of the specification, on every target: [3.0] gives
    [Int64(3)], [3.5] gives [Float64(3.5)], [2^53 - 1] gives
    [Int64(2^53 - 1)], and a double with a fractional part never gives
    [Int64]. But a negative integral number such as [-1] falls outside
    [uint64_t], where the conversion is undefined: on AArch64 ([fcvtzu]
    saturates to 0) [-1] gives [Float64(-1.0)], where the specified
    classification, and x86-64, give [Int64(-1)]. *)
Theorem number_message_classification (oor : double -> Z) :
  number_message oor (cast_double_of_i64 3) = MESSAGE_I64 3 /\
  number_message oor (binary_normalize 53 1024 7 (-1) false)
    = MESSAGE_F64 (binary_normalize 53 1024 7 (-1) false) /\
  number_message oor (cast_double_of_i64 (2 ^ 53 - 1)) = MESSAGE_I64 (2 ^ 53 - 1) /\
  (forall d, double_has_fraction d = true -> number_message oor d = MESSAGE_F64 d) /\
  spec_number_message (cast_double_of_i64 (-1)) = MESSAGE_I64 (-1) /\
  number_message u64_x86_64 (cast_double_of_i64 (-1)) = MESSAGE_I64 (-1) /\
  number_message u64_saturating (cast_double_of_i64 (-1))
    = MESSAGE_F64 (cast_double_of_i64 (-1)).
Proof.
  split; [apply number_message_int; lia|].
  split; [apply number_message_float; reflexivity|].
  split; [apply number_message_int; lia|].
  split.
  - intros d Hd; apply number_message_float.
    destruct d; [discriminate | reflexivity | reflexivity | exact Hd].
  - repeat split; vm_compute; reflexivity.
Qed.

(** * Further properties of the addon *)

(** ** Induction on JS values through array elements and property values *)

Lemma js_value_ind_children (P : js_value -> Prop)
    (Hleaf : forall v, match v with JsArray _ | JsObject _ => False | _ => True end -> P v)
    (Harr : forall elems, Forall P elems -> P (JsArray elems))
    (Hobj : forall props, Forall (fun p => P (snd p)) props -> P (JsObject props)) :
  forall v, P v.
Proof.
  fix IH 1; intros v; destruct v as [| | b | n | s | elems | props | | | |];
    try (apply Hleaf; exact I).
  - apply Harr; revert elems; fix go 1; intros [|e es]; constructor; [apply IH | apply go].
  - apply Hobj; revert props; fix go 1; intros [|[k e] ps]; constructor; [apply IH | apply go].
Qed.

Lemma from_js_is_invalid (oor : double -> Z) (v : js_value) :
  is_invalid (from_js_value_impl oor v) = unrepresentable v.
Proof.
  destruct v; try reflexivity.
  - cbn [from_js_value_impl]; unfold number_message; destruct (double_eq _ _); reflexivity.
  - rewrite from_js_object_cells; reflexivity.
Qed.

(** ** Freeing what was encoded *)

Lemma free_cells_encoded (oor : double -> Z) (elems : list js_value) :
  Forall (fun e => match free_raw_value (from_js_value_impl oor e) with
                   | Some _ => true | None => false end = children_representable e) elems ->
  match free_cells free_raw_value (map (encode_cell (from_js_value_impl oor)) elems) with
  | Some _ => true | None => false
  end = forallb (fun e => negb (unrepresentable e) && children_representable e) elems.
Proof.
  induction elems as [|e es IH]; intros Hall; [reflexivity|].
  inversion Hall as [|e' es' He Hes]; subst.
  simpl; unfold encode_cell at 1; rewrite from_js_is_invalid.
  destruct (unrepresentable e); [reflexivity|]; simpl.
  rewrite <- He, <- (IH Hes).
  destruct (free_raw_value (from_js_value_impl oor e)), (free_cells _ _); reflexivity.
Qed.

Lemma free_dict_encoded (oor : double -> Z) (props : list (string * js_value)) :
  Forall (fun p => match free_raw_value (from_js_value_impl oor (snd p)) with
                   | Some _ => true | None => false end = children_representable (snd p))
    props ->
  match free_dict_cells free_raw_value (map (key_cell (from_js_value_impl oor)) props)
          (map (fun p => encode_cell (from_js_value_impl oor) (snd p)) props) with
  | Some _ => true | None => false
  end = forallb (fun p => negb (unrepresentable (snd p)) && children_representable (snd p))
          props.
Proof.
  induction props as [|[k e] ps IH]; intros Hall; [reflexivity|].
  inversion Hall as [|p' ps' He Hps]; subst.
  simpl; unfold key_cell at 1, encode_cell at 1; simpl; rewrite from_js_is_invalid.
  destruct (unrepresentable e); [reflexivity|]; simpl in *.
  rewrite <- He, <- (IH Hps).
  destruct (free_raw_value (from_js_value_impl oor e)), (free_dict_cells _ _ _); reflexivity.
Qed.

(** [free_raw_value] runs without reading an unwritten cell on the
    encoding of a JS value exactly when no array element and no property
    value of it, at any depth, is a symbol, a function, an external or a
    bigint. Otherwise the destructor of [BackendMessageFromJs] reads the
    indeterminate cell left for that child. *)
Theorem free_raw_value_defined_iff (oor : double -> Z) (v : js_value) :
  free_raw_value (from_js_value_impl oor v) <> None <-> children_representable v = true.
Proof.
  enough (H : match free_raw_value (from_js_value_impl oor v) with
              | Some _ => true | None => false end = children_representable v).
  { rewrite <- H; destruct (free_raw_value _); split; congruence. }
  revert v; apply js_value_ind_children.
  - intros v Hv; destruct v; try contradiction; try reflexivity.
    cbn [from_js_value_impl]; unfold number_message; destruct (double_eq _ _); reflexivity.
  - intros elems Hall; rewrite from_js_array_cells; cbn [free_raw_value].
    change (children_representable (JsArray elems)) with
      (forallb (fun e => negb (unrepresentable e) && children_representable e) elems).
    rewrite <- (free_cells_encoded oor elems Hall).
    destruct (free_cells _ _); reflexivity.
  - intros props Hall; rewrite from_js_object_cells; cbn [free_raw_value].
    change (children_representable (JsObject props)) with
      (forallb (fun p => negb (unrepresentable (snd p)) && children_representable (snd p))
         props).
    rewrite <- (free_dict_encoded oor props Hall).
    destruct (free_dict_cells _ _ _); reflexivity.
Qed.


(** ** Encoding and decoding JS values *)

(** A JS number encoded by [from_js_value_impl] and decoded by
    [to_js_value] comes back as the same double, on every target, except
    that [-0] comes back as [+0]. *)
Theorem number_encode_decode (oor : double -> Z) (d : double) :
  to_js_value (number_message oor d)
  = Some (JsNumber (match d with S754_zero _ => S754_zero false | _ => d end)).
Proof.
  destruct d as [s|s| |s m e].
  - destruct s; vm_compute; reflexivity.
  - rewrite number_message_float by reflexivity; reflexivity.
  - rewrite number_message_float by reflexivity; reflexivity.
  - unfold number_message; cbv zeta.
    destruct (double_eq _ (S754_finite s m e)) eqn:E; [|reflexivity].
    apply SFeqb_finite_eq in E; cbn [to_js_value to_js_value_impl]; rewrite E.
    reflexivity.
Qed.

(** ** When decoding throws *)

Lemma list_to_js_defined (ptr : list (option crosslocale_message)) :
  cells_all (fun v => match to_js_value_impl v with Some _ => true | None => false end
                      = decodable v) ptr ->
  match list_to_js to_js_value_impl ptr with Some _ => true | None => false end
  = forallb (fun c => match c with Some v => decodable v | None => false end) ptr.
Proof.
  induction ptr as [|[v|] rest IH]; intros Hall; [reflexivity| |reflexivity].
  destruct Hall as [Hv Hrest]; simpl.
  rewrite <- Hv, <- (IH Hrest).
  destruct (to_js_value_impl v), (list_to_js to_js_value_impl rest); reflexivity.
Qed.

Lemma dict_to_js_defined (vs : list (option crosslocale_message)) :
  forall (ks : list (option string)) (obj : js_object_state),
  cells_all (fun v => match to_js_value_impl v with Some _ => true | None => false end
                      = decodable v) vs ->
  match dict_to_js to_js_value_impl object_prototype_on_chain obj ks vs
  with Some _ => true | None => false end
  = (List.length ks =? List.length vs)%nat &&
    forallb (fun c => match c with Some _ => true | None => false end) ks &&
    forallb (fun c => match c with Some v => decodable v | None => false end) vs.
Proof.
  induction vs as [|[v|] vs' IH]; intros ks obj Hall.
  - destruct ks as [|[k|] ks]; reflexivity.
  - destruct Hall as [Hv Hrest].
    destruct ks as [|[k|] ks']; simpl.
    + reflexivity.
    + destruct (to_js_value_impl v) as [js|] eqn:E; simpl in Hv; rewrite <- Hv.
      * rewrite (IH ks' _ Hrest).
        destruct (List.length ks' =? List.length vs')%nat,
          (forallb _ ks'), (forallb _ vs'); reflexivity.
      * destruct (List.length ks' =? List.length vs')%nat, (forallb _ ks'); reflexivity.
    + destruct (List.length ks' =? List.length vs')%nat; reflexivity.
  - destruct ks as [|[k|] ks']; simpl;
      rewrite ?andb_false_r; reflexivity.
Qed.

Lemma to_js_value_decodable (m : crosslocale_message) :
  match to_js_value m with Some _ => true | None => false end = decodable m.
Proof.
  unfold to_js_value; revert m.
  apply (crosslocale_message_ind_cells (fun m =>
           match to_js_value_impl m with Some _ => true | None => false end
           = decodable m)); try reflexivity.
  - intros ptr Hall; cbn [to_js_value_impl decodable].
    rewrite <- (list_to_js_defined ptr Hall).
    destruct (list_to_js to_js_value_impl ptr); reflexivity.
  - intros ks vs Hall; cbn [to_js_value_impl decodable].
    rewrite <- (dict_to_js_defined vs ks fresh_object Hall).
    destruct (dict_to_js _ _ _ ks vs); reflexivity.
Qed.

(** [to_js_value] throws (the [std::logic_error] of an [Invalid] value, or
    a read of a cell that was never written) exactly when the message
    contains [Invalid] at some depth, an unwritten cell, or a dict whose
    key and value arrays differ in length; otherwise it returns a JS
    value. *)
Theorem to_js_value_defined_iff (m : crosslocale_message) :
  to_js_value m <> None <-> decodable m = true.
Proof.
  rewrite <- to_js_value_decodable; destruct (to_js_value m); split; congruence.
Qed.

(** ** Module initialisation, continued *)

(** With bridge version 3, [Init] also exports the function
    [init_logging], and it leaves every export other than the six it sets
    as it was. *)
Theorem init_keeps_other_exports (lib : library_constants)
    (exports : exports_object) :
  CROSSLOCALE_FFI_BRIDGE_VERSION lib = 3 ->
  fst (Init lib exports) = InitReturned /\
  exports_get (snd (Init lib exports)) "init_logging"
    = Some (ExportFunction "init_logging") /\
  (forall k, ~ In k ["FFI_BRIDGE_VERSION"%string; "VERSION"%string;
                     "NICE_VERSION"%string; "PROTOCOL_VERSION"%string;
                     "init_logging"%string; "Backend"%string] ->
     exports_get (snd (Init lib exports)) k = exports_get exports k).
Proof.
  intros Hv; unfold Init, SUPPORTED_FFI_BRIDGE_VERSION; rewrite Hv, Z.eqb_refl.
  cbn [negb fst snd]; unfold NodeBackend_Init.
  split; [reflexivity|]; split.
  - solve_exports_get.
  - intros k Hk; simpl in Hk.
    repeat rewrite exports_get_set_other by (intros ->; tauto).
    reflexivity.
Qed.

Lemma init_keeps_other_exports_witness :
  CROSSLOCALE_FFI_BRIDGE_VERSION
    {| CROSSLOCALE_FFI_BRIDGE_VERSION := 3; CROSSLOCALE_VERSION := "0.1.0";
       CROSSLOCALE_NICE_VERSION := "v0.1.0"; CROSSLOCALE_PROTOCOL_VERSION := 0 |} = 3 /\
  exports_get (snd (Init
    {| CROSSLOCALE_FFI_BRIDGE_VERSION := 3; CROSSLOCALE_VERSION := "0.1.0";
       CROSSLOCALE_NICE_VERSION := "v0.1.0"; CROSSLOCALE_PROTOCOL_VERSION := 0 |}
    [("other"%string, ExportNumber 7)])) "other" = Some (ExportNumber 7).
Proof.
  split; [reflexivity|].
  exact (proj2 (proj2 (init_keeps_other_exports
    {| CROSSLOCALE_FFI_BRIDGE_VERSION := 3; CROSSLOCALE_VERSION := "0.1.0";
       CROSSLOCALE_NICE_VERSION := "v0.1.0"; CROSSLOCALE_PROTOCOL_VERSION := 0 |}
    [("other"%string, ExportNumber 7)] eq_refl)) "other"%string
    ltac:(simpl; intuition discriminate)).
Defined.

(** ** Accounting of the asynchronous receives *)

Lemma count_occ_snoc (l : list nat) (x y : nat) :
  count_occ Nat.eq_dec (l ++ [x]) y = (count_occ Nat.eq_dec l y + if Nat.eqb x y then 1 else 0)%nat.
Proof.
  rewrite count_occ_app; simpl.
  destruct (Nat.eq_dec x y) as [->|Hne].
  - rewrite Nat.eqb_refl; reflexivity.
  - apply Nat.eqb_neq in Hne; rewrite Hne; reflexivity.
Qed.

Lemma count_occ_middle (l1 l2 : list nat) (x y : nat) :
  count_occ Nat.eq_dec (l1 ++ x :: l2) y
  = (count_occ Nat.eq_dec (l1 ++ l2) y + if Nat.eqb x y then 1 else 0)%nat.
Proof.
  rewrite !count_occ_app; simpl.
  destruct (Nat.eq_dec x y) as [->|Hne].
  - rewrite Nat.eqb_refl; lia.
  - apply Nat.eqb_neq in Hne; rewrite Hne; lia.
Qed.

Lemma loop_step_accounting
    (desc : crosslocale_result -> string)
    (id : crosslocale_result -> option string)
    (s : event_loop) (t : thread) (e : loop_event) (s' : event_loop) (cb : nat) :
  loop_step desc id s t e s' ->
  callback_accounting cb s' = (callback_accounting cb s + recv_requests cb [e])%nat.
Proof.
  intros Hstep; destruct Hstep as [s args | s q1 cb' q2 recv Hq | s c1 cb' w c2 args Hc Hr];
    unfold callback_accounting, recv_requests; cbn [work_queue completed callback_calls].
  - unfold recv_message_call.
    destruct args as [|[cb'|v] [|a rest]]; cbn [fst snd filter List.length];
      try lia.
    cbn [work_queue completed callback_calls]; rewrite count_occ_snoc.
    destruct (Nat.eqb cb' cb); simpl; lia.
  - rewrite Hq, map_app, count_occ_middle, !count_occ_app; simpl.
    destruct (Nat.eq_dec cb' cb) as [->|Hne].
    + rewrite Nat.eqb_refl; lia.
    + apply Nat.eqb_neq in Hne; rewrite Hne; lia.
  - rewrite Hc, !map_app, !count_occ_app; simpl.
    destruct (Nat.eq_dec cb' cb); lia.
Qed.

(** Along any run of the event loop from its start, every callback passed
    to [recv_message] is, at each moment, in exactly one place per call:
    queued for the pool, finished and waiting, or already called. So a
    callback is called at most as many times as it was passed to
    [recv_message], and a finished worker is never reported twice. *)
Theorem recv_callbacks_accounted
    (desc : crosslocale_result -> string)
    (id : crosslocale_result -> option string)
    (evs : list loop_event) (s : event_loop) (cb : nat) :
  loop_run desc id empty_event_loop evs s ->
  callback_accounting cb s = recv_requests cb evs /\
  (count_occ Nat.eq_dec (map fst (callback_calls s)) cb <= recv_requests cb evs)%nat.
Proof.
  intros Hrun.
  assert (H : forall s0 evs s1, loop_run desc id s0 evs s1 ->
            callback_accounting cb s1 = (callback_accounting cb s0 + recv_requests cb evs)%nat).
  { clear; intros s0 evs s1 Hrun; induction Hrun as [s|s t e s' evs s'' Hstep Hrun IH].
    - unfold recv_requests; simpl; lia.
    - rewrite IH, (loop_step_accounting desc id s t e s' cb Hstep).
      unfold recv_requests; cbn [filter].
      destruct (match e with
                | EvRecvMessageCall [RecvArgFunction cb'] _ => Nat.eqb cb' cb
                | _ => false end); simpl; lia. }
  rewrite (H _ _ _ Hrun); unfold callback_accounting at 1; simpl.
  split; [reflexivity|].
  unfold callback_accounting in H; specialize (H _ _ _ Hrun); simpl in H; lia.
Qed.

Lemma recv_callbacks_accounted_witness :
  loop_run (fun _ => ""%string) (fun _ => None) empty_event_loop
    [EvRecvMessageCall [RecvArgFunction 7%nat] (Returned JsUndefined)]
    {| work_queue := [7%nat]; completed := []; callback_calls := [] |} /\
  callback_accounting 7%nat {| work_queue := [7%nat]; completed := []; callback_calls := [] |}
    = recv_requests 7%nat [EvRecvMessageCall [RecvArgFunction 7%nat] (Returned JsUndefined)].
Proof.
  assert (Hrun : loop_run (fun _ => ""%string) (fun _ => None) empty_event_loop
    [EvRecvMessageCall [RecvArgFunction 7%nat] (Returned JsUndefined)]
    {| work_queue := [7%nat]; completed := []; callback_calls := [] |}).
  { apply (run_cons _ _ empty_event_loop MainThread _
             (snd (recv_message_call [RecvArgFunction 7%nat] empty_event_loop))).
    - exact (StepRecvMessage _ _ empty_event_loop [RecvArgFunction 7%nat]).
    - apply run_nil. }
  split; [exact Hrun|].
  exact (proj1 (recv_callbacks_accounted (fun _ => ""%string) (fun _ => None) _ _ 7%nat Hrun)).
Defined.

(** ** Allocation and release of an encoded message *)

Lemma free_cells_allocations (oor : double -> Z) (elems : list js_value) :
  Forall (fun e => children_representable e = true ->
            exists bl, free_raw_value (from_js_value_impl oor e) = Some bl
                       /\ Permutation bl (from_js_allocations oor e)) elems ->
  forallb (fun e => negb (unrepresentable e) && children_representable e) elems = true ->
  exists bl, free_cells free_raw_value (map (encode_cell (from_js_value_impl oor)) elems)
             = Some bl /\ Permutation bl (flat_map (from_js_allocations oor) elems).
Proof.
  induction elems as [|e es IH]; intros Hall Hrep; [exists []; split; constructor|].
  inversion Hall as [|e' es' He Hes]; subst.
  simpl in Hrep; apply andb_true_iff in Hrep as [Hre Hres].
  apply andb_true_iff in Hre as [Hu Hc]; apply negb_true_iff in Hu.
  destruct (He Hc) as [b [Hb Hpb]]; destruct (IH Hes Hres) as [bs [Hbs Hpbs]].
  exists (b ++ bs); split.
  - simpl; unfold encode_cell at 1; rewrite from_js_is_invalid, Hu, Hb, Hbs; reflexivity.
  - simpl; apply Permutation_app; assumption.
Qed.

Lemma free_dict_allocations (oor : double -> Z) (props : list (string * js_value)) :
  Forall (fun p => children_representable (snd p) = true ->
            exists bl, free_raw_value (from_js_value_impl oor (snd p)) = Some bl
                       /\ Permutation bl (from_js_allocations oor (snd p))) props ->
  forallb (fun p => negb (unrepresentable (snd p)) && children_representable (snd p))
    props = true ->
  exists bl, free_dict_cells free_raw_value (map (key_cell (from_js_value_impl oor)) props)
               (map (fun p => encode_cell (from_js_value_impl oor) (snd p)) props)
             = Some bl /\
             Permutation bl
               (flat_map (fun p => from_js_allocations oor (snd p) ++
                            (if is_invalid (from_js_value_impl oor (snd p)) then []
                             else [BlockKey (fst p)])) props).
Proof.
  induction props as [|[k e] ps IH]; intros Hall Hrep; [exists []; split; constructor|].
  inversion Hall as [|p' ps' He Hps]; subst.
  simpl in Hrep; apply andb_true_iff in Hrep as [Hre Hrest].
  apply andb_true_iff in Hre as [Hu Hc]; apply negb_true_iff in Hu.
  simpl in He; destruct (He Hc) as [b [Hb Hpb]]; destruct (IH Hps Hrest) as [bs [Hbs Hpbs]].
  exists (BlockKey k :: b ++ bs); split.
  - simpl; unfold key_cell at 1, encode_cell at 1; simpl.
    rewrite from_js_is_invalid, Hu, Hb, Hbs; reflexivity.
  - simpl; rewrite from_js_is_invalid, Hu, <- app_assoc; simpl.
    eapply perm_trans; [|apply Permutation_middle].
    apply perm_skip, Permutation_app; assumption.
Qed.

(** When no array element and no property value of a JS value is
    unrepresentable, the destructor of [BackendMessageFromJs] releases
    exactly the blocks that [from_js_value_impl] allocated for it, each
    once (in another order): nothing leaks and nothing is freed twice. *)
Theorem free_releases_allocations (oor : double -> Z) (v : js_value) :
  children_representable v = true ->
  exists blocks, free_raw_value (from_js_value_impl oor v) = Some blocks
                 /\ Permutation blocks (from_js_allocations oor v).
Proof.
  revert v.
  apply (js_value_ind_children (fun v => children_representable v = true ->
           exists blocks, free_raw_value (from_js_value_impl oor v) = Some blocks
                          /\ Permutation blocks (from_js_allocations oor v))).
  - intros v Hv _; destruct v; try contradiction;
      try (eexists; split; [reflexivity | apply Permutation_refl]).
    exists []; split; [|apply perm_nil].
    cbn [from_js_value_impl]; unfold number_message;
      destruct (double_eq _ _); reflexivity.
  - intros elems Hall Hrep; rewrite from_js_array_cells.
    destruct (free_cells_allocations oor elems Hall Hrep) as [bl [Hbl Hp]].
    exists (bl ++ [BlockListArray (List.length elems)]); split.
    + cbn [free_raw_value]; rewrite Hbl, length_map; reflexivity.
    + cbn [from_js_allocations].
      eapply perm_trans; [|apply Permutation_sym, Permutation_cons_append].
      apply Permutation_app; [exact Hp | apply Permutation_refl].
  - intros props Hall Hrep; rewrite from_js_object_cells.
    destruct (free_dict_allocations oor props Hall Hrep) as [bl [Hbl Hp]].
    exists (bl ++ [BlockDictKeys (List.length props); BlockDictValues (List.length props)]).
    split.
    + cbn [free_raw_value]; rewrite Hbl, length_map; reflexivity.
    + cbn [from_js_allocations].
      eapply perm_trans; [apply Permutation_app_comm|]; simpl.
      apply perm_skip, perm_skip; exact Hp.
Qed.

Lemma free_releases_allocations_witness :
  children_representable
    (JsObject [("k"%string, JsArray [JsString "a"; JsSymbol])]) = false /\
  children_representable
    (JsObject [("k"%string, JsArray [JsString "a"; JsNull])]) = true /\
  exists blocks,
    free_raw_value (from_js_value_impl u64_saturating
      (JsObject [("k"%string, JsArray [JsString "a"; JsNull])])) = Some blocks
    /\ Permutation blocks (from_js_allocations u64_saturating
         (JsObject [("k"%string, JsArray [JsString "a"; JsNull])])).
Proof.
  split; [reflexivity|]; split; [reflexivity|].
  apply (free_releases_allocations u64_saturating
    (JsObject [("k"%string, JsArray [JsString "a"; JsNull])])).
  reflexivity.
Defined.

(** ** Errors thrown to JS *)





(** ** Receiving a message that cannot be decoded *)

(** After a successful receive, [recv_message_sync] ends in the escaping
    [std::logic_error], and [GetResult] of the asynchronous worker throws
    (so the callback is never called), exactly when the received message
    is not decodable: it contains [Invalid] at some depth, an unwritten
    cell, or a dict whose key and value arrays differ in length. *)
Theorem undecodable_receive_throws (desc : crosslocale_result -> string)
    (id : crosslocale_result -> option string) (m : crosslocale_message) :
  (NodeBackend_recv_message_sync desc id O (CROSSLOCALE_OK, m) = EscapedLogicError
     <-> decodable m = false) /\
  (GetResult desc id (Execute (CROSSLOCALE_OK, m)) = None <-> decodable m = false).
Proof.
  rewrite <- to_js_value_decodable.
  unfold NodeBackend_recv_message_sync, GetResult, Execute; simpl.
  destruct (to_js_value m); split; split; congruence.
Qed.

(** ** The arguments of the [recv_message] callback *)

(** In every reachable state of the event loop, each call of a
    [recv_message] callback follows the Node convention: either
    [(null, value)] with the decoded message, which is never [undefined],
    or a single JS error built from a failure code of the library. *)
Theorem callback_args_convention (desc : crosslocale_result -> string)
    (id : crosslocale_result -> option string) (s : event_loop) :
  reachable desc id s ->
  forall cb args, In (cb, args) (callback_calls s) ->
  (exists v, args = [ArgValue JsNull; ArgValue v] /\ v <> JsUndefined) \/
  (exists res, result_is_ok res = false /\
               args = [ArgError (to_node_error desc id res)]).
Proof.
  induction 1 as [|s t e s' Hr IH Hstep]; simpl; [tauto|].
  intros cb args Hin.
  inversion Hstep as [s0 rargs | s0 q1 cb0 q2 recv Hq | s0 c1 cb0 w c2 args0 Hc Hget];
    subst; simpl in *.
  - destruct rargs as [|[cb'|v] [|a rest]]; simpl in Hin; eauto.
  - eauto.
  - apply in_app_or in Hin as [Hin | [Heq | []]]; [eauto|].
    injection Heq as <- <-.
    assert (Hw : In (cb0, w) (completed s)) by (rewrite Hc; apply in_or_app; simpl; tauto).
    destruct (completed_from_execute desc id s Hr cb0 w Hw) as [[res msg] ->].
    destruct (GetResult_Execute desc id res msg args0 Hget) as [Hok Hfail].
    destruct (result_is_ok res) eqn:E.
    + destruct res; try discriminate.
      destruct (Hok eq_refl) as [v [Hv ->]]; left; exists v; split; [reflexivity|].
      intros ->; exact (to_js_value_never_undefined msg Hv).
    + right; exists res; split; [exact E|].
      apply Hfail; intros ->; discriminate.
Qed.

Lemma callback_args_convention_witness :
  let s1 := snd (recv_message_call [RecvArgFunction 5%nat] empty_event_loop) in
  let s2 := {| work_queue := []; completed := [(5%nat, Execute (CROSSLOCALE_OK, MESSAGE_NIL))];
               callback_calls := [] |} in
  let s3 := {| work_queue := []; completed := [];
               callback_calls := [(5%nat, [ArgValue JsNull; ArgValue JsNull])] |} in
  reachable (fun _ => ""%string) (fun _ => None) s3 /\
  In (5%nat, [ArgValue JsNull; ArgValue JsNull]) (callback_calls s3) /\
  ((exists v, [ArgValue JsNull; ArgValue JsNull] = [ArgValue JsNull; ArgValue v]
              /\ v <> JsUndefined) \/
   (exists res, result_is_ok res = false /\
      [ArgValue JsNull; ArgValue JsNull] =
      [ArgError (to_node_error (fun _ => ""%string) (fun _ => None) res)])).
Proof.
  intros s1 s2 s3.
  assert (Hr : reachable (fun _ => ""%string) (fun _ => None) s3).
  { apply (reachable_step _ _ s2 MainThread
             (EvCallback 5%nat [ArgValue JsNull; ArgValue JsNull])).
    - apply (reachable_step _ _ s1 PoolThread (EvBlockingRecv (CROSSLOCALE_OK, MESSAGE_NIL))).
      + apply (reachable_step _ _ empty_event_loop MainThread
                 (EvRecvMessageCall [RecvArgFunction 5%nat]
                    (fst (recv_message_call [RecvArgFunction 5%nat] empty_event_loop)))).
        * apply reachable_init.
        * apply StepRecvMessage.
      + apply (StepExecute _ _ s1 [] 5%nat [] (CROSSLOCALE_OK, MESSAGE_NIL)); reflexivity.
    - apply (StepComplete _ _ s2 [] 5%nat (Execute (CROSSLOCALE_OK, MESSAGE_NIL)) []
               [ArgValue JsNull; ArgValue JsNull]); reflexivity. }
  split; [exact Hr|]; split; [simpl; tauto|].
  apply (callback_args_convention _ _ s3 Hr 5%nat); simpl; tauto.
Defined.
